(** * speki: the PTY process runner and the streaming event decoder

    A shallow embedding of [archive/pty_runner.py] and
    [archive/stream_parser.py], and the properties of the two programs
    that their specification states.

    Both programs are loops around operating-system calls.  The embedding
    makes the calls explicit: what the operating system answers is an
    input of the model (a script of replies), and what the program does to
    the outside world is an output of the model (a trace of events, in the
    order in which the program performs them). *)

From Stdlib Require Import ZArith String Ascii.
From Stdlib.Strings Require Import Byte.
From stdpp Require Import base tactics option list gmap strings pretty.

(** * Part I: the two programs *)

(** ** Text, as the runner handles it *)

(** The runner never looks inside a text: it tests whether it is empty
    and it concatenates.  A [string] stands for it.  The decoder slices,
    searches and quotes its texts, and has a model of [str] of its own. *)

(** [bool(s)] for a [str]: only the empty string is falsy. *)
Definition str_truthy (s : string) : bool :=
  match s with
  | EmptyString => false
  | String _ _ => true
  end.

(** [''.join(chunks)]. *)
Definition join (chunks : list string) : string :=
  fold_right String.append "" chunks.

(** ** The PTY process runner: [archive/pty_runner.py] *)

Module PtyRunner.

(** The calls whose answer the program waits for are [open] on the log
    file, [select.select], [os.read] and [process.poll]: each can answer
    with a value or with an exception, as the environment decides.  So
    can the writes and the flushes on the two sinks, which are inside the
    [try] blocks of the loops.  The other calls ([pty.openpty],
    [subprocess.Popen], the writes to the input pipe, the closes), which
    no [except] clause guards, are taken to succeed. *)

(** Exceptions a call of [run_with_pty] can end with.  [OSError] is the
    class the two [except] clauses name; [KeyboardInterrupt] stands for
    every exception outside that class. *)
Inductive exn : Type :=
| OSError
| KeyboardInterrupt.

(** What a call answers: a value, or an exception. *)
Inductive reply (A : Type) : Type :=
| Ok (a : A)
| Raise (e : exn).
Arguments Ok {A} a.
Arguments Raise {A} e.

(** The environment of one run.  Each list holds the answers of one kind
    of call, in the order of the calls.  A list of [select], [read] or
    [poll] answers that runs out stands for a call that has not answered
    by the end of the observation.  [w_sink] holds the answers of the
    calls on the two sinks ([sys.stdout.write], [sys.stdout.flush],
    [log_handle.write], [log_handle.flush]), in the order of the calls:
    the calls past the end of the list succeed. *)
Record world : Type := World {
  w_open : reply unit;                  (* [open(log_file, 'w')] *)
  w_select : list (reply bool);         (* [select.select]: is [ready] non-empty *)
  w_read : list (reply (list byte));    (* [os.read(master_fd, 1024)] *)
  w_poll : list (reply (option Z));     (* [process.poll()] *)
  w_sink : list (reply unit)            (* the writes and flushes on the sinks *)
}.

(** What the run does to the outside world. *)
Inductive event : Type :=
| EvOpenPty
| EvSpawn (cmd : list string)
| EvCloseSlave
| EvStdinWrite (data : string)
| EvStdinClose
| EvOpenLog (path : string)
| EvRead (data : list byte)
| EvStdoutWrite (text : string)
| EvStdoutFlush
| EvLogWrite (text : string)
| EvLogFlush
| EvCloseMaster
| EvCloseLog.

(** The variables of [run_with_pty] that change inside the loop, the
    answers not yet consumed, and the trace so far.  [select] answers are
    passed separately: every turn of either loop consumes exactly one. *)
Record state : Type := State {
  reads : list (reply (list byte));
  polls : list (reply (option Z));
  sinks : list (reply unit);
  returncode : option Z;                (* [process.returncode] *)
  output_chunks : list string;
  trace : list event
}.

Definition emit (evs : list event) (st : state) : state :=
  State (reads st) (polls st) (sinks st) (returncode st) (output_chunks st)
        (trace st ++ evs).

Definition set_reads (rs : list (reply (list byte))) (st : state) : state :=
  State rs (polls st) (sinks st) (returncode st) (output_chunks st) (trace st).

Definition set_polls (ps : list (reply (option Z))) (st : state) : state :=
  State (reads st) ps (sinks st) (returncode st) (output_chunks st) (trace st).

Definition set_sinks (ks : list (reply unit)) (st : state) : state :=
  State (reads st) (polls st) ks (returncode st) (output_chunks st) (trace st).

Definition set_returncode (rc : option Z) (st : state) : state :=
  State (reads st) (polls st) (sinks st) rc (output_chunks st) (trace st).

Definition append_chunk (text : string) (st : state) : state :=
  State (reads st) (polls st) (sinks st) (returncode st)
        (output_chunks st ++ [text]) (trace st).

(** One call on a sink: [ev] is what the call does when it returns.  A
    call that raises leaves no event. *)
Definition sink_call (ev : event) (st : state) : reply unit * state :=
  match sinks st with
  | [] => (Ok (), emit [ev] st)
  | Ok _ :: ks => (Ok (), emit [ev] (set_sinks ks st))
  | Raise e :: ks => (Raise e, set_sinks ks st)
  end.

(** Calls on the sinks, one after the other, up to the first that
    raises: [None] when none did. *)
Fixpoint sink_calls (evs : list event) (st : state) : option exn * state :=
  match evs with
  | [] => (None, st)
  | ev :: evs =>
      match sink_call ev st with
      | (Ok _, st) => sink_calls evs st
      | (Raise e, st) => (Some e, st)
      end
  end.

(** How a loop is left. *)
Inductive loop_exit : Type :=
| Break                      (* the loop ended, control goes on to [finally] *)
| Propagate (e : exn)        (* an exception leaves the [try] block *)
| Blocked.                   (* a call has not answered: still inside the loop *)

(** How [run_with_pty] is left. *)
Inductive outcome : Type :=
| Returned (returncode : option Z) (captured : string)
| Raised (e : exn)
| Hung.

(** The calls on the sinks that one chunk asks for, lines 53 to 59 and
    77 to 81, by what they do. *)
Definition sink_events (log : bool) (text : string) : list event :=
  [EvStdoutWrite text; EvStdoutFlush] ++
  (if log then [EvLogWrite text; EvLogFlush] else []).

Section WithDecode.

(** [data.decode('utf-8', errors='replace')]: a total function of the
    standard library, left abstract. *)
Variable decode : list byte -> string.

(** Lines 49 to 59 (and 75 to 81): one chunk is appended to
    [output_chunks], written to standard output and flushed, then written
    to the log and flushed when there is a log.  The first of these calls
    that raises ends the sequence: the chunk is in [output_chunks] by
    then. *)
Definition tee (log : bool) (data : list byte) (st : state)
  : option exn * state :=
  let text := decode data in
  sink_calls (sink_events log text) (append_chunk text st).

(** [not data] for a [bytes] value. *)
Definition bytes_empty (data : list byte) : bool :=
  match data with
  | [] => true
  | _ :: _ => false
  end.

(** Lines 68 to 83: the drain loop after the child was seen to have
    ended.  The whole loop is inside [try: ... except OSError: pass], and
    line 84 leaves the outer loop whatever happened here: an [OSError]
    of [select], of [read] or of a call on a sink ends the loop. *)
Fixpoint drain (log : bool) (sels : list (reply bool)) (st : state)
  : loop_exit * state :=
  match sels with
  | [] => (Blocked, st)
  | Raise OSError :: _ => (Break, st)
  | Raise e :: _ => (Propagate e, st)
  | Ok false :: _ => (Break, st)
  | Ok true :: sels' =>
      match reads st with
      | [] => (Blocked, st)
      | Raise OSError :: rs => (Break, set_reads rs st)
      | Raise e :: rs => (Propagate e, set_reads rs st)
      | Ok data :: rs =>
          let st := emit [EvRead data] (set_reads rs st) in
          if bytes_empty data then (Break, st)
          else
            match tee log data st with
            | (None, st) => drain log sels' st
            | (Some OSError, st) => (Break, st)
            | (Some e, st) => (Propagate e, st)
            end
      end
  end.

(** Lines 39 to 84: the polling loop. *)
Fixpoint poll_loop (log : bool) (sels : list (reply bool)) (st : state)
  : loop_exit * state :=
  match sels with
  | [] => (Blocked, st)
  | Raise e :: _ => (Propagate e, st)   (* line 41 is outside the inner [try] *)
  | Ok ready :: sels' =>
      (* lines 43 to 62; [inl] leaves the loop, [inr] goes on to line 65 *)
      let after_read : loop_exit * state + state :=
        if ready then
          match reads st with
          | [] => inl (Blocked, st)
          | Raise OSError :: rs => inl (Break, set_reads rs st)
          | Raise e :: rs => inl (Propagate e, set_reads rs st)
          | Ok data :: rs =>
              let st := emit [EvRead data] (set_reads rs st) in
              if bytes_empty data then inl (Break, st)
              else
                match tee log data st with
                | (None, st) => inr st
                | (Some OSError, st) => inl (Break, st)   (* line 62 *)
                | (Some e, st) => inl (Propagate e, st)
                end
          end
        else inr st in
      match after_read with
      | inl r => r
      | inr st =>
          (* line 65: [poll] stores what it returns in [returncode] *)
          match polls st with
          | [] => (Blocked, st)
          | Raise e :: ps => (Propagate e, set_polls ps st)
          | Ok None :: ps => poll_loop log sels' (set_polls ps st)
          | Ok (Some rc) :: ps =>
              drain log sels' (set_returncode (Some rc) (set_polls ps st))
          end
      end
  end.

(** Lines 31 to 33: [if input_data:] is false for [None] and for [""]. *)
Definition send_input (input_data : option string) : list event :=
  match input_data with
  | Some s => if str_truthy s then [EvStdinWrite s; EvStdinClose] else []
  | None => []
  end.

(** [if log_file]: the path to open, if any. *)
Definition log_path (log_file : option string) : option string :=
  match log_file with
  | Some p => if str_truthy p then Some p else None
  | None => None
  end.

(** Lines 38 to 91, once [log_handle] is bound: the loop, the [finally]
    block, and the [return]. *)
Definition stream (log : bool) (w : world) (tr : list event)
  : outcome * list event :=
  let '(ex, st) := poll_loop log (w_select w)
                     (State (w_read w) (w_poll w) (w_sink w) None [] tr) in
  let finally := trace st ++ EvCloseMaster :: (if log then [EvCloseLog] else []) in
  match ex with
  | Break => (Returned (returncode st) (join (output_chunks st)), finally)
  | Propagate e => (Raised e, finally)
  | Blocked => (Hung, trace st)
  end.

(** [run_with_pty(cmd, input_data, log_file)].  Allocating the
    pseudo-terminal, starting the child and writing to its input pipe are
    taken to succeed. *)
Definition run_with_pty (cmd : list string) (input_data log_file : option string)
    (w : world) : outcome * list event :=
  let tr := [EvOpenPty; EvSpawn cmd; EvCloseSlave] ++ send_input input_data in
  match log_path log_file with
  | None => stream false w tr
  | Some path =>
      match w_open w with
      | Raise e => (Raised e, tr)      (* line 36 is outside the [try] *)
      | Ok _ => stream true w (tr ++ [EvOpenLog path])
      end
  end.

(** *** Reading a trace *)

(** The chunks written to standard output, in order. *)
Definition stdout_writes (tr : list event) : list string :=
  omap (λ e, match e with EvStdoutWrite t => Some t | _ => None end) tr.

(** The chunks written to the log file, in order. *)
Definition log_writes (tr : list event) : list string :=
  omap (λ e, match e with EvLogWrite t => Some t | _ => None end) tr.

(** The chunks read from the controller endpoint, in order.  A read of
    zero bytes is the end of the stream, not a chunk. *)
Definition chunks_read (tr : list event) : list (list byte) :=
  omap (λ e, match e with
             | EvRead d => if bytes_empty d then None else Some d
             | _ => None
             end) tr.

(** What was done to the input pipe of the child. *)
Definition stdin_events (tr : list event) : list event :=
  omap (λ e, match e with
             | EvStdinWrite _ | EvStdinClose => Some e
             | _ => None
             end) tr.

(** How many events of [tr] satisfy [p]. *)
Fixpoint count (p : event → bool) (tr : list event) : nat :=
  match tr with
  | [] => 0
  | e :: tr => (if p e then 1 else 0) + count p tr
  end.

Definition is_close_master (e : event) : bool :=
  match e with EvCloseMaster => true | _ => false end.
Definition is_close_log (e : event) : bool :=
  match e with EvCloseLog => true | _ => false end.
Definition is_open_log (e : event) : bool :=
  match e with EvOpenLog _ => true | _ => false end.
Definition is_spawn (e : event) : bool :=
  match e with EvSpawn _ => true | _ => false end.

(** The events of the two loops: reading, and writing to the sinks. *)
Definition is_loop_event (e : event) : bool :=
  match e with
  | EvRead _ | EvStdoutWrite _ | EvStdoutFlush | EvLogWrite _ | EvLogFlush => true
  | _ => false
  end.

(** *** Invariants of the loops *)

(** [grows st st']: the trace of [st'] is the trace of [st] followed by
    events of the loops only. *)
Definition grows (st st' : state) : Prop :=
  ∃ evs, trace st' = trace st ++ evs ∧ forallb is_loop_event evs = true.

(** What holds of a state whenever control is at the head of a loop:
    the chunks written to standard output, the chunks written to the log
    and the chunks kept in [output_chunks] are the decoded chunks read so
    far, one for one. *)
Definition tee_inv (log : bool) (st : state) : Prop :=
  output_chunks st = map decode (chunks_read (trace st)) ∧
  stdout_writes (trace st) = output_chunks st ∧
  log_writes (trace st) = (if log then output_chunks st else []).

(** What holds of a state when a loop is left, also by a call on a sink
    that raised: the chunks kept are the decoded chunks read; what was
    written to the log is the beginning of what was written to standard
    output, which is the beginning of the chunks kept; and the last chunk
    kept is the only one that can be missing from either sink. *)
Definition tee_end (log : bool) (st : state) : Prop :=
  output_chunks st = map decode (chunks_read (trace st)) ∧
  stdout_writes (trace st) `prefix_of` output_chunks st ∧
  (if log then log_writes (trace st) `prefix_of` stdout_writes (trace st)
   else log_writes (trace st) = []) ∧
  length (output_chunks st) ≤
    S (length (if log then log_writes (trace st) else stdout_writes (trace st))).

(** No call on a sink raises. *)
Definition sinks_ok (ks : list (reply unit)) : Prop :=
  Forall (λ k, k = Ok ()) ks.

(** *** Around the loops *)

(** The trace up to the [try]: nothing was read or echoed yet. *)
Definition startup (cmd : list string) (input_data : option string) : list event :=
  [EvOpenPty; EvSpawn cmd; EvCloseSlave] ++ send_input input_data.

(** Whether the [try] block is reached: it is not when a log was asked
    for and [open] raised. *)
Definition try_entered (log_file : option string) (w : world) : bool :=
  match log_path log_file, w_open w with
  | Some _, Raise _ => false
  | _, _ => true
  end.

End WithDecode.

(** *** Environments of concrete runs *)

(** The child has ended with status 1, so that the first read of the
    controller endpoint fails; [poll] has not been called yet. *)
Definition world_read_error : world :=
  World (Ok ()) [Ok true] [Raise OSError] [Ok (Some 1%Z)] [].

(** The log file cannot be opened. *)
Definition world_no_log : world :=
  World (Raise OSError) [Ok true; Ok false] [Ok (String.list_byte_of_string "hi")]
        [Ok (Some 0%Z)] [].

(** Two chunks, then the child is seen to have ended and the drain loop
    finds nothing more. *)
Definition world_two_chunks : world :=
  World (Ok ()) [Ok true; Ok true; Ok false]
        [Ok (String.list_byte_of_string "Hel"); Ok (String.list_byte_of_string "lo")]
        [Ok None; Ok (Some 0%Z)] [].

(** Standard output is a pipe whose reader has gone: the first write
    fills the buffer, and the flush that follows raises
    [BrokenPipeError], which is an [OSError]. *)
Definition world_stdout_gone : world :=
  World (Ok ()) [Ok true; Ok false] [Ok (String.list_byte_of_string "hi")]
        [Ok (Some 0%Z)] [Ok (); Raise OSError].

(** *** [main] of [pty_runner.py] *)

(** Line 96: the text printed to standard error. *)
Definition usage : string := "Usage: pty_runner.py <prompt_file> [log_file]".

(** How [main] is left: [sys.exit(code)], an exception nothing catches,
    or not at all. *)
Inductive main_exit : Type :=
| Exit (code : option Z)
| Uncaught (e : exn)
| Stuck.

(** What [main] did: how it was left, what it printed to standard error,
    and the trace of [run_with_pty]. *)
Record main_result : Type := MainResult {
  m_exit : main_exit;
  m_stderr : list string;
  m_trace : list event
}.

Section Main.

Variable decode : list byte -> string.

(** What one chunk makes the loops do, lines 45 to 59 and 72 to 81. *)
Definition chunk_events (log : bool) (data : list byte) : list event :=
  [EvRead data; EvStdoutWrite (decode data); EvStdoutFlush] ++
  (if log then [EvLogWrite (decode data); EvLogFlush] else []).

(** How the events of the loops can end: with a whole chunk, with the
    read of zero bytes that is the end of the stream, or with a chunk
    whose calls on the sinks stopped at one that raised.  [ok] says that
    no call on a sink raises. *)
Definition last_events (log : bool) (ok : Prop) (last : list event) : Prop :=
  last = [] ∨ last = [EvRead []] ∨
  (¬ ok ∧
   ∃ d done,
     bytes_empty d = false ∧
     done `prefix_of` sink_events log (decode d) ∧
     done ≠ sink_events log (decode d) ∧
     last = EvRead d :: done).

(** [chunked log st st']: from [st] to [st'] the trace grew by the events
    of some chunks, one chunk after the other. *)
Definition chunked (log : bool) (st st' : state) : Prop :=
  ∃ ds,
    Forall (λ d, bytes_empty d = false) ds ∧
    trace st' = trace st ++ concat (map (chunk_events log) ds).

(** [shaped log st st']: from [st] to [st'] the trace grew by the events
    of some chunks, and then by what [last_events] allows. *)
Definition shaped (log : bool) (ok : Prop) (st st' : state) : Prop :=
  ∃ ds last,
    Forall (λ d, bytes_empty d = false) ds ∧
    last_events log ok last ∧
    trace st' = trace st ++ concat (map (chunk_events log) ds) ++ last.

(** Lines 94 to 111.  [argv] is [sys.argv], the name of the script first;
    [read_file path] is what [open(path, 'r')] and [f.read()] give. *)
Definition main (argv : list string) (read_file : string → reply string)
    (w : world) : main_result :=
  match argv with
  | [] | [_] => MainResult (Exit (Some 1%Z)) [usage] []
  | _ :: prompt_file :: rest =>
      let log_file := match rest with [] => None | l :: _ => Some l end in
      match read_file prompt_file with
      | Raise e => MainResult (Uncaught e) [] []
      | Ok prompt =>
          let r := run_with_pty decode ["claude"; "-p"] (Some prompt) log_file w in
          MainResult
            (match r.1 with
             | Returned returncode _ => Exit returncode
             | Raised e => Uncaught e
             | Hung => Stuck
             end) [] r.2
      end
  end.

End Main.

(** The commands of the children started, in order. *)
Definition spawned (tr : list event) : list (list string) :=
  omap (λ e, match e with EvSpawn cmd => Some cmd | _ => None end) tr.

(** A child that ends with status 3 after its last three chunks, which
    are still to be read when [poll] sees it has ended. *)
Definition world_late_output : world :=
  World (Ok ()) [Ok false; Ok true; Ok true; Ok true; Ok false]
        [Ok (String.list_byte_of_string "a"); Ok (String.list_byte_of_string "b");
         Ok (String.list_byte_of_string "c")]
        [Ok (Some 3%Z)] [].

(** The files of a concrete run of [main]: one prompt, nothing else. *)
Definition one_prompt (path : string) : reply string :=
  if String.eqb path "prompt.md" then Ok "Say hi" else Raise OSError.

End PtyRunner.

(** ** The streaming event decoder: [archive/stream_parser.py] *)

Module StreamParser.

(** *** Text *)

(** A character is a Unicode code point, and a [str] is the list of its
    characters: comparing, concatenating, slicing and searching go by
    characters, as they do in Python. *)
Definition char : Type := N.
Definition str : Type := list char.

(** The [str] of a literal of the source: the literals are in ASCII, but
    for the one character of the progress line. *)
Definition txt (s : string) : str :=
  map N_of_ascii (list_ascii_of_string s).

(** [bool(s)] for a [str]: only the empty string is falsy. *)
Definition str_truthy (s : str) : bool :=
  match s with
  | [] => false
  | _ :: _ => true
  end.

(** [''.join(chunks)]. *)
Definition join (chunks : list str) : str := concat chunks.

(** [a == b] for two [str]. *)
Fixpoint str_eqb (a b : str) : bool :=
  match a, b with
  | [], [] => true
  | x :: a, y :: b => N.eqb x y && str_eqb a b
  | _, _ => false
  end.

(** [s[:n]] for a [str]. *)
Definition str_take (n : nat) (s : str) : str := take n s.

(** [s.startswith(p)]. *)
Fixpoint starts_with (p s : str) : bool :=
  match p, s with
  | [], _ => true
  | a :: p, b :: s => N.eqb a b && starts_with p s
  | _ :: _, [] => false
  end.

(** [needle in hay] for two [str]. *)
Fixpoint contains (needle hay : str) : bool :=
  starts_with needle hay ||
  match hay with
  | [] => false
  | _ :: hay => contains needle hay
  end.

(** The characters [str.strip()] removes: the white space of Unicode,
    which is U+0009 to U+000D, U+001C to U+0020, U+0085, U+00A0, U+1680,
    U+2000 to U+200A, U+2028, U+2029, U+202F, U+205F and U+3000. *)
Definition is_space (c : char) : bool :=
  ((9 <=? c) && (c <=? 13) || (28 <=? c) && (c <=? 32) ||
   (c =? 133) || (c =? 160) || (c =? 5760) ||
   (8192 <=? c) && (c <=? 8202) ||
   (c =? 8232) || (c =? 8233) || (c =? 8239) || (c =? 8287) ||
   (c =? 12288))%N.

Fixpoint lstrip (s : str) : str :=
  match s with
  | [] => []
  | c :: s' => if is_space c then lstrip s' else s
  end.

Fixpoint rstrip (s : str) : str :=
  match s with
  | [] => []
  | c :: s' =>
      match rstrip s' with
      | [] => if is_space c then [] else [c]
      | r => c :: r
      end
  end.

(** [s.strip()]. *)
Definition strip (s : str) : str := rstrip (lstrip s).

(** [sep.join(parts)]. *)
Fixpoint join_with (sep : str) (parts : list str) : str :=
  match parts with
  | [] => []
  | [p] => p
  | p :: parts => p ++ sep ++ join_with sep parts
  end.

(** *** Python values *)

#[local] Set Warnings "-register-all".

(** What [json.loads] returns.  A [dict] is the list of its items in
    insertion order, the keys distinct.  Numbers are the integers: a
    number with a fraction or an exponent is outside the model, and so is
    an integer with more digits than the interpreter converts to text. *)
Inductive json : Type :=
| JNull
| JBool (b : bool)
| JInt (n : Z)
| JStr (s : str)
| JArr (items : list json)
| JObj (fields : list (str * json)).

(** The exceptions the decoder can end with.  [json.loads] raises
    [JSONDecodeError] on a text that is not JSON, and it can raise
    [RecursionError] (brackets nested too deep), [ValueError] (from
    Python 3.11 on, an integer of more than 4300 digits) and
    [MemoryError]; the other three come from the statements that
    interpret the record. *)
Inductive exn : Type :=
| JSONDecodeError
| RecursionError
| ValueError
| MemoryError
| AttributeError
| TypeError
| KeyError.

(** A value, or an exception. *)
Inductive res (A : Type) : Type :=
| Val (a : A)
| Exc (e : exn).
Arguments Val {A} a.
Arguments Exc {A} e.

(** [d[key]] for a list of items. *)
Fixpoint dict_get (key : str) (fields : list (str * json)) : option json :=
  match fields with
  | [] => None
  | (k, v) :: fields => if str_eqb k key then Some v else dict_get key fields
  end.

(** [v.get(key, default)]: only a [dict] has the method. *)
Definition py_get (v : json) (key : str) (default : json) : res json :=
  match v with
  | JObj fields =>
      match dict_get key fields with
      | Some x => Val x
      | None => Val default
      end
  | _ => Exc AttributeError
  end.

(** [v == "literal"]. *)
Definition py_eq_str (v : json) (lit : str) : bool :=
  match v with
  | JStr s => str_eqb s lit
  | _ => false
  end.

(** [bool(v)]. *)
Definition truthy (v : json) : bool :=
  match v with
  | JNull => false
  | JBool b => b
  | JInt n => negb (Z.eqb n 0)
  | JStr s => str_truthy s
  | JArr items => match items with [] => false | _ => true end
  | JObj fields => match fields with [] => false | _ => true end
  end.

(** *** Members of [seen_tools] *)

(** A hashable value up to [==]: [True] is [1] and [False] is [0]. *)
Inductive hkey : Type :=
| KNone
| KNum (n : Z)
| KStr (s : str).

Global Instance hkey_eq_dec : EqDecision hkey.
Proof. solve_decision. Defined.

Global Instance hkey_countable : Countable hkey.
Proof.
  refine (inj_countable'
    (λ k, match k with
          | KNone => inl ()
          | KNum n => inr (inl n)
          | KStr s => inr (inr s)
          end)
    (λ x, match x with
          | inl _ => KNone
          | inr (inl n) => KNum n
          | inr (inr s) => KStr s
          end) _).
  by intros [].
Defined.

(** [hash(v)] raises [TypeError] for a [list] and a [dict]. *)
Definition hash_key (v : json) : res hkey :=
  match v with
  | JNull => Val KNone
  | JBool b => Val (KNum (if b then 1 else 0))
  | JInt n => Val (KNum n)
  | JStr s => Val (KStr s)
  | JArr _ | JObj _ => Exc TypeError
  end.

(** *** The interpreter *)

(** What the decoder takes from the interpreter that runs it, and that
    is not the same from one version of Python to another. *)
Class interpreter : Type := Interpreter {
  (* [str.isprintable] on one character, which goes by the Unicode
     database of the interpreter: for the characters from U+0080 on, it
     decides what [repr] escapes *)
  isprintable : char → bool;
  (* whether [hash] takes a [slice], which it does from Python 3.12 on:
     it decides what slicing a [dict] raises *)
  hashable_slices : bool
}.

(** *** The decoder: state and statements *)

(** What the decoder does to the outside world. *)
Inductive event : Type :=
| EvArchive (line : str)          (* [jsonl_handle.write(line)] *)
| EvArchiveFlush                  (* [jsonl_handle.flush()] *)
| EvProgress (tool_id : hkey) (line : str)
    (* line 60: [print] of one progress line, flushed; [tool_id] is not
       printed, it records which tool invocation the line announces *)
| EvText (text : str)             (* lines 65 and 78: [print(text, end="")] *)
| EvNarrative (text : str).       (* line 86: [f.write(full_text)] *)

(** The two variables of [main] that outlive a line, and the trace. *)
Record state : Type := State {
  full_text : str;
  seen_tools : gset hkey;
  trace : list event
}.

(** A statement: it changes the state, and ends with a value or with an
    exception. *)
Definition M (A : Type) : Type := state → state * res A.

Global Instance M_ret : MRet M := λ A a st, (st, Val a).

Global Instance M_bind : MBind M := λ A B k m st,
  match m st with
  | (st', Val a) => k a st'
  | (st', Exc e) => (st', Exc e)
  end.

(** The value of an expression, which may raise. *)
Definition eval {A : Type} (r : res A) : M A := λ st, (st, r).

Definition emit (ev : event) : M unit := λ st,
  (State (full_text st) (seen_tools st) (trace st ++ [ev]), Val ()).

(** [full_text += text]. *)
Definition append_text (text : str) : M unit := λ st,
  (State (full_text st ++ text) (seen_tools st) (trace st), Val ()).

(** [seen_tools.add(k)]. *)
Definition add_seen (k : hkey) : M unit := λ st,
  (State (full_text st) ({[k]} ∪ seen_tools st) (trace st), Val ()).

Definition get_full_text : M str := λ st, (st, Val (full_text st)).
Definition get_seen_tools : M (gset hkey) := λ st, (st, Val (seen_tools st)).

(** [for x in xs: body(x)]. *)
Fixpoint for_each {A : Type} (body : A → M unit) (xs : list A) : M unit :=
  match xs with
  | [] => mret ()
  | x :: xs => body x;; for_each body xs
  end.

(** [try: m] followed by [except json.JSONDecodeError: pass], lines 28
    and 81: what [m] did before it raised stays done. *)
Definition except_decode_error (m : M unit) : M unit := λ st,
  match m st with
  | (st', Exc JSONDecodeError) => (st', Val ())
  | r => r
  end.

Section WithInterpreter.

Context `{py : !interpreter}.

(** *** [repr] and [str] *)

(** The digit of [d], below 16, in base 16. *)
Definition hex_digit (d : N) : char :=
  (if d <? 10 then 48 + d else 87 + d)%N.

(** [n] in base 16, on [width] digits. *)
Fixpoint hex (width : nat) (n : N) : str :=
  match width with
  | 0 => []
  | S width => hex width (n / 16)%N ++ [hex_digit (n mod 16)%N]
  end.

(** One character of [repr(s)], inside the quotes [quote]: the quote
    and the backslash take a backslash; tab, line feed and carriage
    return have their letter; the other characters that are not
    printable are written by their number. *)
Definition repr_char (quote c : char) : str :=
  (if (c =? quote) || (c =? 92) then [92; c]
   else if c =? 9 then txt "\t"
   else if c =? 10 then txt "\n"
   else if c =? 13 then txt "\r"
   else if (c <? 32) || (c =? 127) then txt "\x" ++ hex 2 c
   else if c <? 127 then [c]
   else if isprintable c then [c]
   else if c <=? 255 then txt "\x" ++ hex 2 c
   else if c <=? 65535 then txt "\u" ++ hex 4 c
   else txt "\U" ++ hex 8 c)%N.

Definition repr_chars (quote : char) (s : str) : str :=
  concat (map (repr_char quote) s).

Fixpoint has_char (c : char) (s : str) : bool :=
  match s with
  | [] => false
  | a :: s => N.eqb a c || has_char c s
  end.

(** [repr(s)] for a [str]: single quotes (character 39), unless the text
    has a single quote and no double quote (character 34). *)
Definition repr_str (s : str) : str :=
  let quote : char :=
    if has_char 39%N s && negb (has_char 34%N s) then 34%N else 39%N in
  [quote] ++ repr_chars quote s ++ [quote].

(** [repr(v)]. *)
Fixpoint py_repr (v : json) : str :=
  match v with
  | JNull => txt "None"
  | JBool true => txt "True"
  | JBool false => txt "False"
  | JInt n => txt (pretty n)
  | JStr s => repr_str s
  | JArr items => txt "[" ++ join_with (txt ", ") (map py_repr items) ++ txt "]"
  | JObj fields =>
      txt "{" ++
      join_with (txt ", ")
        (map (λ kv, let '(k, x) := kv in repr_str k ++ txt ": " ++ py_repr x)
             fields)
      ++ txt "}"
  end.

(** [str(v)], which is also how an f-string formats [v]. *)
Definition py_str (v : json) : str :=
  match v with
  | JStr s => s
  | _ => py_repr v
  end.

(** [v[:n]]: a [str] and a [list] can be sliced.  Slicing a [dict] looks
    the slice up as a key, which raises [KeyError] (no key of a record is
    a slice) where a slice can be hashed, and [TypeError] where it
    cannot; [None], a [bool] and an [int] cannot be subscripted. *)
Definition py_take (n : nat) (v : json) : res json :=
  match v with
  | JStr s => Val (JStr (str_take n s))
  | JArr items => Val (JArr (take n items))
  | JObj _ => Exc (if hashable_slices then KeyError else TypeError)
  | _ => Exc TypeError
  end.

(** *** The decoder *)

(** Lines 46 to 59: the detail of a progress line. *)
Definition tool_detail (tool_name inp : json) : res json :=
  if py_eq_str tool_name (txt "Read") then py_get inp (txt "file_path") (JStr [])
  else if py_eq_str tool_name (txt "Grep") then
    match py_get inp (txt "pattern") (JStr []),
          py_get inp (txt "path") (JStr (txt ".")) with
    | Val pattern, Val path =>
        Val (JStr (txt "pattern=" ++ py_repr pattern ++ txt " in " ++ py_str path))
    | Exc e, _ | _, Exc e => Exc e
    end
  else if py_eq_str tool_name (txt "Glob") then py_get inp (txt "pattern") (JStr [])
  else if py_eq_str tool_name (txt "Bash") then
    match py_get inp (txt "command") (JStr []) with
    | Val command => py_take 80 command
    | Exc e => Exc e
    end
  else if py_eq_str tool_name (txt "Task") then
    py_get inp (txt "description") (JStr [])
  else py_get inp (txt "description") (JStr (str_take 60 (py_str inp))).

(** Line 60: the progress line, without the line break [print] adds.  The
    character after the two spaces is U+1F527. *)
Definition progress_line (tool_name detail : json) : str :=
  txt "  " ++ [128295%N] ++ txt " " ++ py_str tool_name ++ txt ": " ++
  py_str detail.

(** Lines 64 to 66, and 77 to 79: [text] is what [block.get("text", "")]
    gave.  [text not in full_text] raises when [text] is not a [str]; it
    is not evaluated when [text] is falsy. *)
Definition emit_text (text : json) : M unit :=
  if truthy text then
    match text with
    | JStr t =>
        seen ← get_full_text;
        if contains t seen then mret ()
        else emit (EvText t);; append_text t
    | _ => eval (Exc TypeError)
    end
  else mret ().

(** Lines 39 to 66: one block of an assistant message. *)
Definition assistant_block (block : json) : M unit :=
  kind ← eval (py_get block (txt "type") JNull);
  if py_eq_str kind (txt "tool_use") then
    tool_name ← eval (py_get block (txt "name") (JStr (txt "unknown")));
    tool_id ← eval (py_get block (txt "id") (JStr []));
    k ← eval (hash_key tool_id);
    seen ← get_seen_tools;
    if decide (k ∈ seen) then mret ()
    else
      add_seen k;;
      inp ← eval (py_get block (txt "input") (JObj []));
      detail ← eval (tool_detail tool_name inp);
      emit (EvProgress k (progress_line tool_name detail))
  else if py_eq_str kind (txt "text") then
    text ← eval (py_get block (txt "text") (JStr []));
    emit_text text
  else mret ().

(** Lines 75 to 79: one block of a final result. *)
Definition result_block (block : json) : M unit :=
  kind ← eval (py_get block (txt "type") JNull);
  if py_eq_str kind (txt "text") then
    text ← eval (py_get block (txt "text") (JStr []));
    emit_text text
  else mret ().

(** [if isinstance(content, list): for block in content: ...]. *)
Definition for_content (body : json → M unit) (content : json) : M unit :=
  match content with
  | JArr blocks => for_each body blocks
  | _ => mret ()
  end.

(** Lines 71 to 79: what is done with the payload of a final result. *)
Definition render_result (result : json) : M unit :=
  match result with
  | JObj _ =>
      content ← eval (py_get result (txt "content") (JArr []));
      for_content result_block content
  | _ => mret ()
  end.

(** Lines 30 to 79: what is done with a line that parsed. *)
Definition process_record (obj : json) : M unit :=
  msg_type ← eval (py_get obj (txt "type") (JStr []));
  if py_eq_str msg_type (txt "assistant") then
    message ← eval (py_get obj (txt "message") (JObj []));
    content ← eval (py_get message (txt "content") (JArr []));
    for_content assistant_block content
  else if py_eq_str msg_type (txt "result") then
    (* the default, [obj.get("message", {})], is evaluated first *)
    fallback ← eval (py_get obj (txt "message") (JObj []));
    result ← eval (py_get obj (txt "result") fallback);
    render_result result
  else mret ().

Section WithJsonLoads.

(** [json.loads] on a [str]: a value or an exception, as the parser of
    the interpreter decides. *)
Variable json_loads : str → res json.

(** Lines 20 to 82: the body of the loop over the lines. *)
Definition process_line (line : str) : M unit :=
  emit (EvArchive line);;
  emit EvArchiveFlush;;
  let line := strip line in
  if str_truthy line then
    except_decode_error (obj ← eval (json_loads line); process_record obj)
  else mret ().

(** Lines 84 to 86. *)
Definition save_narrative : M unit :=
  text ← get_full_text;
  emit (EvNarrative text).

(** [main], run on the lines of standard input. *)
Definition main (lines : list str) : state * res () :=
  (for_each process_line lines;; save_narrative) (State [] ∅ []).

End WithJsonLoads.

End WithInterpreter.

(** *** Reading a trace *)

(** The lines of the record archive, in order. *)
Definition archive (tr : list event) : list str :=
  omap (λ ev, match ev with EvArchive l => Some l | _ => None end) tr.

(** The text fragments printed, in order. *)
Definition texts (tr : list event) : list str :=
  omap (λ ev, match ev with EvText t => Some t | _ => None end) tr.

(** The progress lines printed, each with the tool invocation it
    announces, in order. *)
Definition progress (tr : list event) : list (hkey * str) :=
  omap (λ ev, match ev with EvProgress k l => Some (k, l) | _ => None end) tr.

(** What standard output received: [print] ends a progress line with a
    line feed. *)
Definition stdout (tr : list event) : str :=
  join (omap (λ ev, match ev with
                    | EvProgress _ l => Some (l ++ [10%N])
                    | EvText t => Some t
                    | _ => None
                    end) tr).

(** What the narrative file holds at the end: nothing was written to it
    unless line 86 was reached. *)
Definition narrative (tr : list event) : option str :=
  last (omap (λ ev, match ev with EvNarrative t => Some t | _ => None end) tr).

(** How many progress lines announce the tool invocation [k]. *)
Definition announced (k : hkey) (tr : list event) : nat :=
  length (filter (λ p, p.1 = k) (progress tr)).

(** How many times the fragment [t] was printed. *)
Definition printed (t : str) (tr : list event) : nat :=
  length (filter (λ x, x = t) (texts tr)).

(** *** What one block can do *)

(** The four things a block of a message can do to the state: nothing
    (whatever the result); mark a tool invocation as seen and raise before
    its progress line is printed; announce a tool invocation not seen
    before; print a fragment that is not empty and not in the narrative,
    and append it to the narrative. *)
Inductive block_step (st : state) : state * res () → Prop :=
| step_skip r :
    block_step st (st, r)
| step_marked k e :
    k ∉ seen_tools st →
    block_step st
      (State (full_text st) ({[k]} ∪ seen_tools st) (trace st), Exc e)
| step_announce k line :
    k ∉ seen_tools st →
    block_step st
      (State (full_text st) ({[k]} ∪ seen_tools st)
             (trace st ++ [EvProgress k line]), Val ())
| step_text t :
    t ≠ [] → contains t (full_text st) = false →
    block_step st
      (State (full_text st ++ t) (seen_tools st) (trace st ++ [EvText t]),
       Val ()).

(** *** Statements that keep a property of the state *)

(** The statement ended with a value. *)
Definition is_val {A : Type} (r : res A) : Prop :=
  match r with
  | Val _ => True
  | Exc _ => False
  end.

(** [keeps strict I m]: the statement [m] keeps the property [I] of the
    state; when [strict], this is asked only of the runs of [m] that do
    not raise. *)
Definition keeps {A : Type} (strict : bool) (I : state → Prop) (m : M A) : Prop :=
  ∀ st, I st → (strict = true → is_val (m st).2) → I (m st).1.

(** The statement does not raise what the [except] clause of line 81
    catches. *)
Definition no_decode_error {A : Type} (m : M A) : Prop :=
  ∀ st, (m st).2 ≠ Exc JSONDecodeError.

(** The events that are neither a progress line nor a fragment. *)
Definition is_filing (ev : event) : bool :=
  match ev with
  | EvArchive _ | EvArchiveFlush | EvNarrative _ => true
  | EvProgress _ _ | EvText _ => false
  end.

(** The events of the record archive. *)
Definition is_archiving (ev : event) : bool :=
  match ev with
  | EvArchive _ | EvArchiveFlush => true
  | _ => false
  end.

(** *** Invariants of [seen_tools] *)

(** A tool invocation announced is in [seen_tools], and none is
    announced twice. *)
Definition seen_inv (st : state) : Prop :=
  ∀ k, announced k (trace st) ≤ 1 ∧
       (k ∉ seen_tools st → announced k (trace st) = 0).

(** On a run that has not raised, every member of [seen_tools] has been
    announced. *)
Definition seen_announced (st : state) : Prop :=
  seen_inv st ∧ ∀ k, k ∈ seen_tools st → announced k (trace st) = 1.

(** *** The tool invocations of a line *)

(** The tool invocation a block is, if it is one: its identifier, up to
    [==]. *)
Definition block_key (block : json) : option hkey :=
  match py_get block (txt "type") JNull, py_get block (txt "id") (JStr []) with
  | Val kind, Val tool_id =>
      if py_eq_str kind (txt "tool_use") then
        match hash_key tool_id with
        | Val k => Some k
        | Exc _ => None
        end
      else None
  | _, _ => None
  end.

(** The content blocks of a record, if it is an assistant message. *)
Definition assistant_blocks (obj : json) : list json :=
  match py_get obj (txt "type") (JStr []) with
  | Val msg_type =>
      if py_eq_str msg_type (txt "assistant") then
        match py_get obj (txt "message") (JObj []) with
        | Val message =>
            match py_get message (txt "content") (JArr []) with
            | Val (JArr blocks) => blocks
            | _ => []
            end
        | Exc _ => []
        end
      else []
  | Exc _ => []
  end.

(** The line holds an assistant message with a tool invocation whose
    identifier is [k]. *)
Definition mentions (json_loads : str → res json) (line : str)
    (k : hkey) : Prop :=
  str_truthy (strip line) = true ∧
  ∃ obj block,
    json_loads (strip line) = Val obj ∧
    block ∈ assistant_blocks obj ∧
    block_key block = Some k.

(** *** Containment *)

(** [t] occurs in [s]: the meaning of [t in s]. *)
Definition occurs_in (t s : str) : Prop :=
  ∃ before after, s = before ++ t ++ after.

(** *** Invariant of [full_text] *)

(** The narrative is the fragments printed, in order, and a fragment
    printed occurs in it, and was printed once. *)
Definition text_inv (st : state) : Prop :=
  full_text st = join (texts (trace st)) ∧
  ∀ t, printed t (trace st) ≤ 1 ∧
       (1 ≤ printed t (trace st) → contains t (full_text st) = true).

(** *** The trace is only appended to *)

(** [framed m]: what [m] does depends on the trace in no way, and [m]
    only appends to it. *)
Definition framed {A : Type} (m : M A) : Prop :=
  ∀ st tr,
    m (State (full_text st) (seen_tools st) (tr ++ trace st)) =
    (State (full_text (m st).1) (seen_tools (m st).1) (tr ++ trace (m st).1),
     (m st).2).

(** The events of rendering: a progress line, a fragment. *)
Definition is_rendering (ev : event) : bool := negb (is_filing ev).

(** *** Slices *)

(** [d] is the first [n] characters of [s], or [s] when it is shorter. *)
Definition first_chars (n : nat) (s d : str) : Prop :=
  (∃ rest, s = d ++ rest) ∧ length d = Nat.min n (length s).

(** *** The payload of a final result *)

(** The completion payload of a record, as the specification words it:
    the [result] field, and the [message] field only when there is no
    [result] field; an empty mapping when there is neither. *)
Definition completion_payload (fields : list (str * json)) : json :=
  match dict_get (txt "result") fields with
  | Some result => result
  | None =>
      match dict_get (txt "message") fields with
      | Some message => message
      | None => JObj []
      end
  end.

(** The block is a tool invocation. *)
Definition is_tool_use (block : json) : bool :=
  match py_get block (txt "type") JNull with
  | Val kind => py_eq_str kind (txt "tool_use")
  | Exc _ => false
  end.

(** *** Records and lines of concrete runs *)

(** An interpreter for the concrete runs: a slice can be hashed, as from
    Python 3.12 on; [isprintable] is right from U+0080 to U+00FF, where
    the controls, the no-break space and the soft hyphen are not
    printable, and takes the characters above as printable. *)
Definition sample_interpreter : interpreter :=
  Interpreter (λ c, negb ((128 <=? c) && (c <=? 160) || (c =? 173)))%N true.

(** An assistant message with one text fragment. *)
Definition text_message (t : str) : json :=
  JObj [(txt "type", JStr (txt "assistant"));
        (txt "message",
         JObj [(txt "content",
                JArr [JObj [(txt "type", JStr (txt "text"));
                            (txt "text", JStr t)]])])].

(** The tool invocation of the specification's example. *)
Definition grep_block : json :=
  JObj [(txt "type", JStr (txt "tool_use")); (txt "id", JStr (txt "t1"));
        (txt "name", JStr (txt "Grep"));
        (txt "input", JObj [(txt "pattern", JStr (txt "foo"));
                            (txt "path", JStr (txt "/src"))])].

(** A stand-in for [json.loads] that knows the lines of a run, and raises
    [JSONDecodeError] on the others. *)
Fixpoint loads_table (table : list (str * res json)) (line : str)
  : res json :=
  match table with
  | [] => Exc JSONDecodeError
  | (k, r) :: table => if str_eqb k line then r else loads_table table line
  end.

(** The line break. *)
Definition nl : str := [10%N].

(** An assistant message with the tool invocation [t1]. *)
Definition read_record : json :=
  JObj [(txt "type", JStr (txt "assistant"));
        (txt "message",
         JObj [(txt "content",
                JArr [JObj [(txt "type", JStr (txt "tool_use"));
                            (txt "id", JStr (txt "t1"));
                            (txt "name", JStr (txt "Read"));
                            (txt "input",
                             JObj [(txt "file_path", JStr (txt "/a.txt"))])]])])].

(** A final result with both fields. *)
Definition result_record : json :=
  JObj [(txt "type", JStr (txt "result"));
        (txt "message",
         JObj [(txt "content",
                JArr [JObj [(txt "type", JStr (txt "text"));
                            (txt "text", JStr (txt "from message"))]])]);
        (txt "result",
         JObj [(txt "content",
                JArr [JObj [(txt "type", JStr (txt "text"));
                            (txt "text", JStr (txt "from result"))]])])].

(** A line of brackets nested deeper than the parser goes. *)
Definition deep_line : str := replicate 1000 91%N.

Definition sample_loads : str → res json :=
  loads_table [(txt "first", Val read_record); (txt "second", Val read_record);
               (txt "hello", Val (text_message (txt "Hello")));
               (txt "hello again", Val (text_message (txt "Hello")));
               (txt "done", Val result_record); (txt "7", Val (JInt 7));
               (deep_line, Exc RecursionError)].

(** *** Further vocabulary *)

(** Every character of [s] is white space. *)
Fixpoint all_space (s : str) : bool :=
  match s with
  | [] => true
  | c :: s => is_space c && all_space s
  end.

(** The texts written to the narrative file, in order. *)
Definition narratives (tr : list event) : list str :=
  omap (λ ev, match ev with EvNarrative t => Some t | _ => None end) tr.

(** [covers st st']: whatever [st] has seen, [st'] has seen: the tool
    invocations in [seen_tools], and the texts that occur in the
    narrative. *)
Definition covers (st st' : state) : Prop :=
  seen_tools st ⊆ seen_tools st' ∧
  ∀ t, contains t (full_text st) = true → contains t (full_text st') = true.

(** [replays m]: when [m] has run without raising, running it again from
    a state that covers the one it reached adds nothing but the events of
    the archive. *)
Definition replays (m : M ()) : Prop :=
  ∀ st st1 st',
    m st = (st1, Val ()) →
    covers st1 st' →
    ∃ evs,
      forallb is_archiving evs = true ∧
      m st' = (State (full_text st') (seen_tools st') (trace st' ++ evs), Val ()).

(** *** [main], with its arguments and its files *)

(** Line 9: the text printed to standard error. *)
Definition usage : string := "Usage: stream_parser.py <log_file> <jsonl_file>".

(** How the program is left: by the end of [main], by [sys.exit(code)],
    or by an exception nothing catches. *)
Inductive cli_exit : Type :=
| Finished
| Exit (code : Z)
| Uncaught (e : exn).

(** What the program did: how it was left, what it printed to standard
    error and to standard output, and the files afterwards. *)
Record cli_result : Type := CliResult {
  c_exit : cli_exit;
  c_stderr : list string;
  c_stdout : str;
  c_files : gmap string str
}.

(** Lines 7 to 86, with the files.  [argv] is [sys.argv], the name of the
    script first; [files] maps a path to the content of the file there.
    [open(path, "w")] makes the file at [path] empty, and what is written
    and flushed, or written before the file is closed, is its content
    afterwards.  The archive is opened at line 18, before any line is
    read, and closed when the [with] block is left, by an exception too;
    the narrative file is opened at line 85 only.  Opening the two files
    and writing to them are taken to succeed. *)
Definition cli `{!interpreter} (json_loads : str → res json)
    (argv : list string) (lines : list str) (files : gmap string str)
  : cli_result :=
  match argv with
  | _ :: log_file :: jsonl_file :: _ =>
      let r := main json_loads lines in
      let archived := <[jsonl_file := join (archive (trace r.1))]> files in
      match r.2 with
      | Val _ =>
          CliResult Finished [] (stdout (trace r.1))
                    (<[log_file := full_text r.1]> archived)
      | Exc e => CliResult (Uncaught e) [] (stdout (trace r.1)) archived
      end
  | _ => CliResult (Exit 1) [usage] [] files
  end.

(** *** More records of concrete runs *)

(** A record of a kind the decoder does not render. *)
Definition system_record : json :=
  JObj [(txt "type", JStr (txt "system")); (txt "subtype", JStr (txt "init"))].

(** A final result whose payload holds a tool invocation. *)
Definition result_with_tool : json :=
  JObj [(txt "type", JStr (txt "result"));
        (txt "result", JObj [(txt "content", JArr [grep_block])])].

(** A tool invocation with an identifier and nothing else. *)
Definition bare_tool : json :=
  JObj [(txt "type", JStr (txt "tool_use")); (txt "id", JStr (txt "t9"))].

End StreamParser.

(** * Part II: their properties *)

(** ** The PTY process runner *)

Module PtyRunnerFacts.

Import PtyRunner.

Section WithDecode.

Variable decode : list byte → string.

(** *** Counting in a trace *)

Lemma count_app p tr1 tr2 : count p (tr1 ++ tr2) = count p tr1 + count p tr2.
Proof. induction tr1 as [|e tr1 IH]; simpl; [done|]. rewrite IH. lia. Qed.

Lemma count_none p q tr :
  (∀ e, q e = true → p e = false) → forallb q tr = true → count p tr = 0.
Proof.
  intros Hpq. induction tr as [|e tr IH]; simpl; [done|].
  intros [He Htr]%andb_prop. by rewrite (Hpq e He), IH.
Qed.

Lemma stdin_events_loop tr : forallb is_loop_event tr = true → stdin_events tr = [].
Proof.
  induction tr as [|e tr IH]; simpl; [done|].
  intros [He Htr]%andb_prop. unfold stdin_events in *. simpl.
  rewrite (IH Htr). by destruct e.
Qed.

(** *** The calls on the sinks *)

Lemma sinks_ok_tail k ks : sinks_ok (k :: ks) → k = Ok () ∧ sinks_ok ks.
Proof. intros H. by inversion H. Qed.

(** What a sequence of calls on the sinks does: the calls before the
    first that raises are done, all of them when none raises, and none
    raises when the environment has no failure left. *)
Lemma sink_calls_spec evs st :
  let r := sink_calls evs st in
  ∃ done,
    done `prefix_of` evs ∧
    trace r.2 = trace st ++ done ∧
    (r.1 = None ↔ done = evs) ∧
    (reads r.2 = reads st ∧ polls r.2 = polls st ∧
     returncode r.2 = returncode st ∧ output_chunks r.2 = output_chunks st) ∧
    (sinks_ok (sinks st) → r.1 = None ∧ sinks_ok (sinks r.2)).
Proof.
  cbv zeta. revert st. induction evs as [|ev evs IH]; intros st; simpl.
  { exists []. by rewrite app_nil_r. }
  unfold sink_call. destruct (sinks st) as [|[[]|e] ks] eqn:Hks.
  - destruct (IH (emit [ev] st)) as (done & Hp & Htr & Hall & Hf & Hok).
    exists (ev :: done). split; [by apply prefix_cons|].
    split; [rewrite Htr; simpl; by rewrite <- app_assoc|].
    split; [rewrite Hall; split; [by intros ->|by intros [= ->]]|].
    split; [done|]. intros _. apply Hok. simpl. rewrite Hks. constructor.
  - destruct (IH (emit [ev] (set_sinks ks st))) as (done & Hp & Htr & Hall & Hf & Hok).
    exists (ev :: done). split; [by apply prefix_cons|].
    split; [rewrite Htr; simpl; by rewrite <- app_assoc|].
    split; [rewrite Hall; split; [by intros ->|by intros [= ->]]|].
    split; [done|]. intros [_ H]%sinks_ok_tail. by apply Hok.
  - exists []. split; [apply prefix_nil|]. simpl. rewrite app_nil_r.
    split; [done|]. split; [done|]. split; [done|].
    by intros [? _]%sinks_ok_tail.
Qed.

Lemma tee_spec log data st :
  let r := tee decode log data st in
  ∃ done,
    done `prefix_of` sink_events log (decode data) ∧
    trace r.2 = trace st ++ done ∧
    (r.1 = None ↔ done = sink_events log (decode data)) ∧
    (reads r.2 = reads st ∧ polls r.2 = polls st ∧
     returncode r.2 = returncode st) ∧
    output_chunks r.2 = output_chunks st ++ [decode data] ∧
    (sinks_ok (sinks st) → r.1 = None ∧ sinks_ok (sinks r.2)).
Proof.
  cbv zeta. unfold tee.
  destruct (sink_calls_spec (sink_events log (decode data))
              (append_chunk (decode data) st))
    as (done & Hp & Htr & Hall & (Hr & Hpo & Hrc & Hout) & Hok).
  exists done. done.
Qed.

(** What the calls on the sinks that were done for a chunk wrote: nothing,
    or the chunk to standard output only, or the chunk to both. *)
Lemma sink_prefix_cases log text done :
  done `prefix_of` sink_events log text →
  forallb is_loop_event done = true ∧
  chunks_read done = [] ∧
  ((stdout_writes done = [] ∧ log_writes done = []) ∨
   (stdout_writes done = [text] ∧ log_writes done = []) ∨
   (log = true ∧ stdout_writes done = [text] ∧ log_writes done = [text])).
Proof.
  intros [rest H]. unfold sink_events in H.
  destruct log; simpl in H;
    destruct done as [|e1 [|e2 [|e3 [|e4 [|e5 done]]]]]; simplify_eq/=;
    (split; [done|]); (split; [done|]); auto.
Qed.

Lemma sink_events_writes log text :
  stdout_writes (sink_events log text) = [text] ∧
  log_writes (sink_events log text) = (if log then [text] else []) ∧
  chunks_read (sink_events log text) = [].
Proof. by destruct log. Qed.

(** *** Rules for the two loops *)

Section LoopRules.

Variable log : bool.

(** [I] is asked of the states at the head of a loop, and [Q] of the
    states in which a loop is left. *)
Variables I Q : state → Prop.

Hypothesis leave : ∀ st, I st → Q st.

Hypothesis read_raises : ∀ st e rs,
  I st → reads st = Raise e :: rs → Q (set_reads rs st).

Hypothesis read_eof : ∀ st data rs,
  I st → reads st = Ok data :: rs → bytes_empty data = true →
  Q (emit [EvRead data] (set_reads rs st)).

Hypothesis read_chunk : ∀ st data rs,
  I st → reads st = Ok data :: rs → bytes_empty data = false →
  let r := tee decode log data (emit [EvRead data] (set_reads rs st)) in
  match r.1 with
  | None => I r.2
  | Some _ => Q r.2
  end.

Lemma drain_rule sels st : I st → Q (drain decode log sels st).2.
Proof.
  revert st. induction sels as [|[[]|e] sels IH]; intros st Hst; simpl.
  - by apply leave.
  - destruct (reads st) as [|[data|e] rs] eqn:Hrs.
    + by apply leave.
    + destruct (bytes_empty data) eqn:Hd; [by apply (read_eof st data rs)|].
      pose proof (read_chunk st data rs Hst Hrs Hd) as Ht. cbv zeta in Ht.
      destruct (tee decode log data _) as [[[]|] st']; simpl in *;
        [exact Ht|exact Ht|by apply IH].
    + destruct e; simpl; eapply read_raises; eauto.
  - by apply leave.
  - destruct e; by apply leave.
Qed.

Hypothesis poll_raises : ∀ st e ps,
  I st → polls st = Raise e :: ps → Q (set_polls ps st).

Hypothesis poll_none : ∀ st ps,
  I st → polls st = Ok None :: ps → I (set_polls ps st).

Hypothesis poll_status : ∀ st rc ps sels,
  I st → polls st = Ok (Some rc) :: ps →
  Q (drain decode log sels (set_returncode (Some rc) (set_polls ps st))).2.

Lemma poll_loop_rule sels st : I st → Q (poll_loop decode log sels st).2.
Proof.
  revert st. induction sels as [|[ready|e] sels IH]; intros st Hst; simpl;
    [by apply leave| |by apply leave].
  assert (∀ st1, I st1 →
    Q (match polls st1 with
       | [] => (Blocked, st1)
       | Ok (Some rc) :: ps =>
           drain decode log sels (set_returncode (Some rc) (set_polls ps st1))
       | Ok None :: ps => poll_loop decode log sels (set_polls ps st1)
       | Raise e :: ps => (Propagate e, set_polls ps st1)
       end).2) as Hpoll.
  { intros st1 H1. destruct (polls st1) as [|[[rc|]|e] ps] eqn:Hps; simpl.
    - by apply leave.
    - by apply (poll_status st1 rc ps).
    - by apply IH, poll_none.
    - by apply (poll_raises st1 e ps). }
  destruct ready; [|by apply Hpoll].
  destruct (reads st) as [|[data|e] rs] eqn:Hrs.
  - by apply leave.
  - destruct (bytes_empty data) eqn:Hd; [by apply (read_eof st data rs)|].
    pose proof (read_chunk st data rs Hst Hrs Hd) as Ht. cbv zeta in Ht.
    destruct (tee decode log data _) as [[[]|] st']; simpl in *;
      [exact Ht|exact Ht|by apply Hpoll].
  - destruct e; simpl; eapply read_raises; eauto.
Qed.

End LoopRules.

(** A property of the state that every statement of the two loops keeps
    is kept by the two loops. *)
Lemma loops_keep log (I : state → Prop) :
  (∀ st rs, I st → I (set_reads rs st)) →
  (∀ st data rs, I st → I (emit [EvRead data] (set_reads rs st))) →
  (∀ st data, I st → I (tee decode log data st).2) →
  (∀ st ps, I st → I (set_polls ps st)) →
  (∀ st rc, I st → I (set_returncode (Some rc) st)) →
  ∀ sels st, I st →
    I (drain decode log sels st).2 ∧ I (poll_loop decode log sels st).2.
Proof.
  intros Hr He Ht Hp Hs.
  assert (∀ st data rs, I st →
    let r := tee decode log data (emit [EvRead data] (set_reads rs st)) in
    match r.1 with None => I r.2 | Some _ => I r.2 end) as Hc.
  { intros st data rs Hst. cbv zeta.
    pose proof (Ht _ data (He st data rs Hst)) as H.
    by destruct (tee decode log data _).1. }
  assert (∀ sels st, I st → I (drain decode log sels st).2) as Hdrain.
  { intros sels st Hst.
    apply (drain_rule log I I);
      [done|by intros; apply Hr|by intros; apply He|by intros; apply Hc|done]. }
  intros sels st Hst. split; [by apply Hdrain|].
  apply (poll_loop_rule log I I);
    [done|by intros; apply Hr|by intros; apply He|by intros; apply Hc
    |by intros; apply Hp|by intros; apply Hp|by intros; apply Hdrain, Hs, Hp|done].
Qed.

(** *** The loops only read and write *)

Lemma grows_refl st : grows st st.
Proof. exists []. by rewrite app_nil_r. Qed.

Lemma grows_trans st1 st2 st3 : grows st1 st2 → grows st2 st3 → grows st1 st3.
Proof.
  intros (e1 & H1 & F1) (e2 & H2 & F2). exists (e1 ++ e2).
  rewrite H2, H1, <- app_assoc. split; [done|].
  rewrite forallb_app. by rewrite F1, F2.
Qed.

Lemma grows_same st st' st'' :
  grows st st' → trace st'' = trace st' → grows st st''.
Proof. intros (evs & H & F) E. exists evs. by rewrite E. Qed.

Lemma grows_tee log data st : grows st (tee decode log data st).2.
Proof.
  destruct (tee_spec log data st) as (done & Hp & Htr & _).
  exists done. split; [done|]. by apply (sink_prefix_cases log (decode data)).
Qed.

Lemma grows_read data rs st : grows st (emit [EvRead data] (set_reads rs st)).
Proof. by exists [EvRead data]. Qed.

Lemma loops_grow log sels st :
  grows st (drain decode log sels st).2 ∧
  grows st (poll_loop decode log sels st).2.
Proof.
  apply (loops_keep log (grows st)); try apply grows_refl.
  - intros st' rs H. by apply (grows_same st st').
  - intros st' data rs H. eapply grows_trans; [exact H|apply grows_read].
  - intros st' data H. eapply grows_trans; [exact H|apply grows_tee].
  - intros st' ps H. by apply (grows_same st st').
  - intros st' rc H. by apply (grows_same st st').
Qed.

Lemma poll_loop_grows log sels st : grows st (poll_loop decode log sels st).2.
Proof. apply loops_grow. Qed.

(** *** The three copies of the output *)

Lemma tee_inv_end log st : tee_inv decode log st → tee_end decode log st.
Proof.
  intros (H1 & H2 & H3). unfold tee_end. rewrite H2.
  split; [done|]. split; [done|]. destruct log; rewrite H3; split; (done || lia).
Qed.

Lemma tee_inv_read log data rs st :
  bytes_empty data = true →
  tee_inv decode log st → tee_inv decode log (emit [EvRead data] (set_reads rs st)).
Proof.
  intros Hd (H1 & H2 & H3). unfold tee_inv, chunks_read, stdout_writes, log_writes in *.
  simpl. rewrite !omap_app. simpl. rewrite Hd, !app_nil_r. done.
Qed.

(** One chunk: when every call on the sinks returned, the three copies
    agree again; when one raised, the chunk is kept, and it is the only
    one a sink can miss. *)
Lemma tee_inv_tee log data rs st :
  bytes_empty data = false →
  tee_inv decode log st →
  let r := tee decode log data (emit [EvRead data] (set_reads rs st)) in
  match r.1 with
  | None => tee_inv decode log r.2
  | Some _ => tee_end decode log r.2
  end.
Proof.
  intros Hd (H1 & H2 & H3). cbv zeta.
  destruct (tee_spec log data (emit [EvRead data] (set_reads rs st)))
    as (done & Hp & Htr & Hall & _ & Hout & _).
  assert (chunks_read (trace st ++ [EvRead data]) =
          chunks_read (trace st) ++ [data]) as Ec.
  { unfold chunks_read. rewrite omap_app. simpl. by rewrite Hd. }
  assert (stdout_writes (trace st ++ [EvRead data]) = stdout_writes (trace st))
    as Eo.
  { unfold stdout_writes. rewrite omap_app. simpl. by rewrite app_nil_r. }
  assert (log_writes (trace st ++ [EvRead data]) = log_writes (trace st)) as El.
  { unfold log_writes. rewrite omap_app. simpl. by rewrite app_nil_r. }
  assert (∀ tr, chunks_read (tr ++ done) = chunks_read tr ++ chunks_read done)
    as Ac by (intros tr; apply omap_app).
  assert (∀ tr, stdout_writes (tr ++ done) = stdout_writes tr ++ stdout_writes done)
    as Ao by (intros tr; apply omap_app).
  assert (∀ tr, log_writes (tr ++ done) = log_writes tr ++ log_writes done)
    as Al by (intros tr; apply omap_app).
  simpl in Htr, Hout.
  destruct (tee decode log data _) as [[e|] st']; simpl in *.
  - destruct (sink_prefix_cases log (decode data) done Hp) as (_ & Hc & Hw).
    unfold tee_end.
    rewrite Htr, Hout, Ac, Ao, Al, Ec, Eo, El, Hc, app_nil_r, map_app, <- H1, H2.
    split; [done|]. rewrite H3.
    destruct Hw as [[-> ->]|[[-> ->]|(-> & -> & ->)]]; rewrite ?app_nil_r.
    + split; [by apply prefix_app_r|].
      destruct log; (split; [done|]); rewrite length_app; simpl; lia.
    + split; [done|].
      destruct log; (split; [by rewrite ?app_nil_r; try apply prefix_app_r|]);
        rewrite ?app_nil_r, !length_app; simpl; lia.
    + split; [done|]. split; [done|]. lia.
  - pose proof (proj1 Hall eq_refl) as ->.
    destruct (sink_events_writes log (decode data)) as (Wo & Wl & Wc).
    unfold tee_inv.
    rewrite Htr, Hout, Ac, Ao, Al, Ec, Eo, El, Wo, Wl, Wc, app_nil_r, map_app,
      <- H1, H2, H3.
    by destruct log.
Qed.

Lemma tee_inv_same log st st' :
  tee_inv decode log st →
  trace st' = trace st → output_chunks st' = output_chunks st →
  tee_inv decode log st'.
Proof. unfold tee_inv. by intros H -> ->. Qed.

Lemma tee_end_same log st st' :
  tee_end decode log st →
  trace st' = trace st → output_chunks st' = output_chunks st →
  tee_end decode log st'.
Proof. unfold tee_end. by intros H -> ->. Qed.

(** The state in which the polling loop is left: the three copies agree
    up to the last chunk, and they agree when no call on a sink raises. *)
Lemma loops_tee log ks sels st :
  tee_inv decode log st →
  (sinks_ok ks → sinks_ok (sinks st)) →
  let Q := λ st', tee_end decode log st' ∧ (sinks_ok ks → tee_inv decode log st') in
  Q (drain decode log sels st).2 ∧ Q (poll_loop decode log sels st).2.
Proof.
  intros Hinv Hks. cbv zeta.
  set (I := λ st', tee_inv decode log st' ∧ (sinks_ok ks → sinks_ok (sinks st'))).
  set (Q := λ st', tee_end decode log st' ∧ (sinks_ok ks → tee_inv decode log st')).
  assert (∀ st', I st' → Q st') as leave.
  { intros st' [H1 H2]. split; [by apply tee_inv_end|done]. }
  assert (∀ st' e rs, I st' → reads st' = Raise e :: rs → Q (set_reads rs st'))
    as read_raises.
  { intros st' e rs H _. by apply leave. }
  assert (∀ st' data rs, I st' → reads st' = Ok data :: rs →
            bytes_empty data = true → Q (emit [EvRead data] (set_reads rs st')))
    as read_eof.
  { intros st' data rs [H1 H2] _ Hd. apply leave. split; [by apply tee_inv_read|done]. }
  assert (∀ st' data rs, I st' → reads st' = Ok data :: rs →
            bytes_empty data = false →
            let r := tee decode log data (emit [EvRead data] (set_reads rs st')) in
            match r.1 with None => I r.2 | Some _ => Q r.2 end) as read_chunk.
  { intros st' data rs [H1 H2] _ Hd. cbv zeta.
    pose proof (tee_inv_tee log data rs st' Hd H1) as Ht. cbv zeta in Ht.
    destruct (tee_spec log data (emit [EvRead data] (set_reads rs st')))
      as (_ & _ & _ & _ & _ & _ & Hok).
    destruct (tee decode log data _) as [[e|] st'']; simpl in *.
    - split; [done|]. intros Hk. by destruct (Hok (H2 Hk)).
    - split; [done|]. intros Hk. by destruct (Hok (H2 Hk)). }
  assert (∀ sels' st', I st' → Q (drain decode log sels' st').2) as Hdrain.
  { intros sels' st' H. by apply (drain_rule log I Q). }
  split; [by apply Hdrain|].
  apply (poll_loop_rule log I Q); try done.
  - intros st' e ps H _. by apply leave.
  - intros st' rc ps sels' H _. by apply Hdrain.
Qed.

(** *** Before and after the loops *)

Lemma send_input_quiet input_data :
  chunks_read (send_input input_data) = [] ∧
  stdout_writes (send_input input_data) = [] ∧
  log_writes (send_input input_data) = [] ∧
  count is_close_master (send_input input_data) = 0 ∧
  count is_close_log (send_input input_data) = 0 ∧
  count is_open_log (send_input input_data) = 0 ∧
  count is_spawn (send_input input_data) = 0.
Proof. destruct input_data as [[|c s]|]; simpl; done. Qed.

(** [stream] and its loop, side by side. *)
Lemma stream_unfold log w tr :
  stream decode log w tr =
    let r := poll_loop decode log (w_select w)
               (State (w_read w) (w_poll w) (w_sink w) None [] tr) in
    let finally := trace r.2 ++ EvCloseMaster :: (if log then [EvCloseLog] else []) in
    match r.1 with
    | Break => (Returned (returncode r.2) (join (output_chunks r.2)), finally)
    | Propagate e => (Raised e, finally)
    | Blocked => (Hung, trace r.2)
    end.
Proof. unfold stream. by destruct (poll_loop decode _ _ _) as [[] st]. Qed.

(** What [finally] adds is neither a read nor a write. *)
Lemma finally_quiet (log : bool) (tr : list event) :
  let tr' := tr ++ EvCloseMaster :: (if log then [EvCloseLog] else []) in
  chunks_read tr' = chunks_read tr ∧
  stdout_writes tr' = stdout_writes tr ∧
  log_writes tr' = log_writes tr.
Proof.
  cbv zeta. unfold chunks_read, stdout_writes, log_writes.
  rewrite !omap_app. destruct log; simpl; by rewrite !app_nil_r.
Qed.

(** The copies at the end of [stream]: [tee_end] of the whole trace, and
    [tee_inv] when no call on a sink raises. *)
Lemma stream_tee log w tr :
  chunks_read tr = [] → stdout_writes tr = [] → log_writes tr = [] →
  let r := stream decode log w tr in
  let texts := map decode (chunks_read r.2) in
  (stdout_writes r.2 `prefix_of` texts ∧
   (if log then log_writes r.2 `prefix_of` stdout_writes r.2
    else log_writes r.2 = []) ∧
   length texts ≤ S (length (if log then log_writes r.2 else stdout_writes r.2)) ∧
   match r.1 with
   | Returned _ captured => captured = join texts
   | _ => True
   end) ∧
  (sinks_ok (w_sink w) →
   stdout_writes r.2 = texts ∧
   log_writes r.2 = (if log then texts else [])).
Proof.
  intros Hc Ho Hl. cbv zeta. rewrite stream_unfold. cbv zeta.
  destruct (loops_tee log (w_sink w) (w_select w)
              (State (w_read w) (w_poll w) (w_sink w) None [] tr))
    as [_ [(E1 & E2 & E3 & E4) Hinv]].
  { unfold tee_inv. simpl. rewrite Hc, Ho, Hl. by destruct log. }
  { done. }
  destruct (poll_loop decode _ _ _) as [ex st]. simpl in *.
  destruct (finally_quiet log (trace st)) as (Fc & Fo & Fl). cbv zeta in *.
  split.
  - destruct ex; simpl; rewrite ?Fc, ?Fo, ?Fl, <- E1; done.
  - intros Hk. destruct (Hinv Hk) as (H1 & H2 & H3).
    destruct ex; simpl; rewrite ?Fc, ?Fo, ?Fl, <- H1, H2, H3; done.
Qed.

Lemma stream_closes log w tr :
  count is_close_master tr = 0 → count is_close_log tr = 0 →
  let r := stream decode log w tr in
  r.1 ≠ Hung →
  count is_close_master r.2 = 1 ∧
  count is_close_log r.2 = (if log then 1 else 0) ∧
  count is_open_log r.2 = count is_open_log tr.
Proof.
  intros Hm Hl. cbv zeta. rewrite stream_unfold. cbv zeta.
  destruct (poll_loop_grows log (w_select w)
              (State (w_read w) (w_poll w) (w_sink w) None [] tr))
    as (evs & Htr & Hevs).
  destruct (poll_loop decode _ _ _) as [ex st]. simpl in *.
  assert (count is_close_master evs = 0) as Em
    by (apply (count_none _ is_loop_event); [by intros []|done]).
  assert (count is_close_log evs = 0) as El
    by (apply (count_none _ is_loop_event); [by intros []|done]).
  assert (count is_open_log evs = 0) as Eo
    by (apply (count_none _ is_loop_event); [by intros []|done]).
  destruct ex; simpl; intros Hh; try done;
    rewrite Htr, !count_app, Hm, Hl, Em, El, Eo; destruct log; simpl; lia.
Qed.

Lemma stream_stdin log w tr :
  stdin_events (stream decode log w tr).2 = stdin_events tr.
Proof.
  rewrite stream_unfold. cbv zeta.
  destruct (poll_loop_grows log (w_select w)
              (State (w_read w) (w_poll w) (w_sink w) None [] tr))
    as (evs & Htr & Hevs).
  destruct (poll_loop decode _ _ _) as [ex st]. simpl in *.
  assert (stdin_events (trace st) = stdin_events tr) as E.
  { rewrite Htr. unfold stdin_events at 1. rewrite omap_app.
    fold (stdin_events tr). fold (stdin_events evs).
    by rewrite (stdin_events_loop evs Hevs), app_nil_r. }
  destruct ex; simpl; [| |done];
    unfold stdin_events at 1; rewrite omap_app; fold (stdin_events (trace st));
    rewrite E; destruct log; simpl; by rewrite app_nil_r.
Qed.

(** *** Where the returned status comes from *)

Lemma tee_fields log data st :
  returncode (tee decode log data st).2 = returncode st ∧
  polls (tee decode log data st).2 = polls st.
Proof. by destruct (tee_spec log data st) as (_ & _ & _ & _ & (_ & ? & ?) & _). Qed.

Lemma drain_returncode log sels st :
  returncode (drain decode log sels st).2 = returncode st.
Proof.
  apply (drain_rule log (λ st', returncode st' = returncode st)
           (λ st', returncode st' = returncode st)); try done.
  intros st' data rs H _ _. cbv zeta.
  destruct (tee_fields log data (emit [EvRead data] (set_reads rs st'))) as [Hr _].
  destruct (tee decode log data _) as [[e|] st'']; simpl in *; congruence.
Qed.

Lemma drop_cons_inv {A} n (l : list A) x rest :
  drop n l = x :: rest → l !! n = Some x ∧ drop (S n) l = rest.
Proof.
  intros H.
  assert (l !! n = Some x) as Hx.
  { rewrite <- (Nat.add_0_r n), <- lookup_drop, H. done. }
  split; [done|]. rewrite (drop_S l x n Hx) in H. by injection H.
Qed.

(** The status is [None] until [poll] answers one, and the loop ends
    with the first status [poll] answers. *)
Lemma poll_loop_first_status log sels st rc :
  returncode st = None →
  returncode (poll_loop decode log sels st).2 = Some rc →
  ∃ n, polls st !! n = Some (Ok (Some rc)) ∧
       ∀ i, i < n → polls st !! i = Some (Ok None).
Proof.
  intros Hnone.
  set (I := λ st', returncode st' = None ∧
                   ∃ n, polls st' = drop n (polls st) ∧
                        ∀ i, i < n → polls st !! i = Some (Ok None)).
  set (Q := λ st', returncode st' = Some rc →
                   ∃ n, polls st !! n = Some (Ok (Some rc)) ∧
                        ∀ i, i < n → polls st !! i = Some (Ok None)).
  apply (poll_loop_rule log I Q).
  - intros st' [H _] H'. congruence.
  - intros st' e rs [H _] _ H'. simpl in H'. congruence.
  - intros st' data rs [H _] _ _ H'. simpl in H'. congruence.
  - intros st' data rs [H1 H2] _ _. cbv zeta.
    destruct (tee_fields log data (emit [EvRead data] (set_reads rs st')))
      as [Hr Hp].
    destruct (tee decode log data _) as [[e|] st'']; simpl in *.
    + intros H'. congruence.
    + split; [congruence|]. by rewrite Hp.
  - intros st' e ps [H _] _ H'. simpl in H'. congruence.
  - intros st' ps [H1 (n & Hn & Hbefore)] Hps. split; [done|].
    rewrite Hn in Hps. apply drop_cons_inv in Hps as [Hx Hd].
    exists (S n). split; [done|]. intros i Hi.
    destruct (decide (i = n)) as [->|]; [done|]. apply Hbefore. lia.
  - intros st' rc' ps sels' [H1 (n & Hn & Hbefore)] Hps.
    unfold Q. rewrite drain_returncode. simpl. intros [= ->].
    rewrite Hn in Hps. apply drop_cons_inv in Hps as [Hx _]. by exists n.
  - split; [done|]. exists 0. split; [done|]. intros i Hi. lia.
Qed.

(** A status that is returned is one that [poll] answered. *)
Lemma returned_status_from_poll cmd input_data log_file w rc captured :
  (run_with_pty decode cmd input_data log_file w).1 =
    Returned (Some rc) captured →
  Ok (Some rc) ∈ w_poll w.
Proof.
  unfold run_with_pty.
  assert (∀ log tr, (stream decode log w tr).1 = Returned (Some rc) captured →
                    Ok (Some rc) ∈ w_poll w) as Hstream.
  { intros log tr. rewrite stream_unfold. cbv zeta.
    pose proof (poll_loop_first_status log (w_select w)
                  (State (w_read w) (w_poll w) (w_sink w) None [] tr) rc eq_refl)
      as H.
    destruct (poll_loop decode log (w_select w) _) as [ex st]. simpl in *.
    destruct ex; simpl; [|done..]. intros [= Hrc _].
    destruct (H Hrc) as (n & Hn & _). by apply list_elem_of_lookup_2 in Hn. }
  destruct (log_path log_file) as [path|]; [|apply Hstream].
  destruct (w_open w) as [[]|e]; [apply Hstream|done].
Qed.

(** When the first read of the controller endpoint fails, the loop is
    left before [poll] is called: no status is returned, whatever [poll]
    would have answered. *)
Lemma read_error_before_poll cmd input_data log_file w sels rs :
  try_entered log_file w = true →
  w_select w = Ok true :: sels →
  w_read w = Raise OSError :: rs →
  (run_with_pty decode cmd input_data log_file w).1 = Returned None "".
Proof.
  unfold try_entered, run_with_pty, stream. intros Hopen Hsel Hread.
  rewrite Hsel, Hread.
  destruct (log_path log_file) as [path|]; [|done].
  by destruct (w_open w) as [[]|e].
Qed.

(** The copies at the end of a run. *)
Lemma run_tee cmd input_data log_file w :
  let r := run_with_pty decode cmd input_data log_file w in
  let log := bool_decide (is_Some (log_path log_file)) in
  let texts := map decode (chunks_read r.2) in
  (stdout_writes r.2 `prefix_of` texts ∧
   (if log then log_writes r.2 `prefix_of` stdout_writes r.2
    else log_writes r.2 = []) ∧
   length texts ≤ S (length (if log then log_writes r.2 else stdout_writes r.2)) ∧
   match r.1 with
   | Returned _ captured => captured = join texts
   | _ => True
   end) ∧
  (sinks_ok (w_sink w) →
   stdout_writes r.2 = texts ∧
   log_writes r.2 = (if log then texts else [])).
Proof.
  cbv zeta. unfold run_with_pty. fold (startup cmd input_data).
  destruct (send_input_quiet input_data) as (Qc & Qo & Ql & _).
  assert (chunks_read (startup cmd input_data) = []) as Sc by exact Qc.
  assert (stdout_writes (startup cmd input_data) = []) as So by exact Qo.
  assert (log_writes (startup cmd input_data) = []) as Sl by exact Ql.
  set (tr := startup cmd input_data) in *. clearbody tr.
  destruct (log_path log_file) as [path|]; simpl.
  - destruct (w_open w) as [[]|e]; simpl.
    + apply (stream_tee true w (tr ++ [EvOpenLog path])).
      * unfold chunks_read. rewrite omap_app. fold (chunks_read tr). by rewrite Sc.
      * unfold stdout_writes. rewrite omap_app. fold (stdout_writes tr).
        by rewrite So.
      * unfold log_writes. rewrite omap_app. fold (log_writes tr). by rewrite Sl.
    + rewrite Sc, So, Sl. simpl. split; [|done].
      split; [done|]. split; [done|]. split; [lia|done].
  - by apply (stream_tee false w tr).
Qed.

(** *** The properties of [run_with_pty] *)

(** C1, as amended. Whatever chunks are read from the controller endpoint
    during a run in which no write and no flush on standard output or on
    the log raises, the chunks written to standard output are the decoded
    chunks read, one for one and in the order of the reads; so are the
    chunks written to the log file when a log destination was given; and
    the text a run returns is their concatenation. *)
Theorem tee_copies_agree cmd input_data log_file w :
  sinks_ok (w_sink w) →
  let r := run_with_pty decode cmd input_data log_file w in
  let texts := map decode (chunks_read r.2) in
  stdout_writes r.2 = texts ∧
  match log_path log_file with
  | Some _ => log_writes r.2 = texts
  | None => log_writes r.2 = []
  end ∧
  match r.1 with
  | Returned _ captured =>
      captured = join texts ∧ captured = join (stdout_writes r.2)
  | _ => True
  end.
Proof.
  intros Hk. cbv zeta.
  destruct (run_tee cmd input_data log_file w) as [(_ & _ & _ & Hret) Hok].
  destruct (Hok Hk) as [Ho Hl]. cbv zeta in *.
  split; [done|]. split.
  - by destruct (log_path log_file).
  - destruct (run_with_pty decode cmd input_data log_file w).1; [|done..].
    by rewrite Ho.
Qed.

(** C2, as amended. When a log destination is given and opening it
    fails, the failure is raised to the caller before anything is read
    from the controller endpoint or echoed, but after the child process
    was spawned and the input text, if any, was delivered to it. *)
Theorem log_open_failure_is_after_spawn cmd input_data log_file w path e :
  log_path log_file = Some path →
  w_open w = Raise e →
  let r := run_with_pty decode cmd input_data log_file w in
  r.1 = Raised e ∧
  count is_spawn r.2 = 1 ∧ EvSpawn cmd ∈ r.2 ∧
  stdin_events r.2 = send_input input_data ∧
  chunks_read r.2 = [] ∧ stdout_writes r.2 = [] ∧ log_writes r.2 = [].
Proof.
  intros Hp Ho. cbv zeta. unfold run_with_pty. rewrite Hp, Ho. simpl.
  destruct (send_input_quiet input_data) as (Qc & Qo & Ql & _ & _ & _ & Qs).
  rewrite Qs. repeat split; try done.
  - apply elem_of_cons. right. apply elem_of_cons. by left.
  - by destruct input_data as [[|c s]|].
Qed.

(** C3. On every way out of the [try] block (the stream ended, a read
    failed, or an exception went through), the controller endpoint is
    closed exactly once, and the log is closed exactly once if it was
    opened and never otherwise. *)
Theorem closes_exactly_once cmd input_data log_file w :
  let r := run_with_pty decode cmd input_data log_file w in
  try_entered log_file w = true →
  r.1 ≠ Hung →
  count is_close_master r.2 = 1 ∧
  count is_close_log r.2 = count is_open_log r.2 ∧
  count is_open_log r.2 = match log_path log_file with Some _ => 1 | None => 0 end.
Proof.
  cbv zeta. unfold try_entered, run_with_pty. fold (startup cmd input_data).
  destruct (send_input_quiet input_data) as (_ & _ & _ & Qm & Ql & Qo & _).
  assert (count is_close_master (startup cmd input_data) = 0) as Sm by exact Qm.
  assert (count is_close_log (startup cmd input_data) = 0) as Sl by exact Ql.
  assert (count is_open_log (startup cmd input_data) = 0) as So by exact Qo.
  set (tr := startup cmd input_data) in *. clearbody tr.
  destruct (log_path log_file) as [path|].
  - destruct (w_open w) as [[]|e]; [|done]. intros _ Hh.
    destruct (stream_closes true w (tr ++ [EvOpenLog path]))
      as (H1 & H2 & H3); [by rewrite count_app, Sm | by rewrite count_app, Sl | done |].
    rewrite H1, H2, H3, count_app, So. done.
  - intros _ Hh.
    destruct (stream_closes false w tr Sm Sl Hh) as (H1 & H2 & H3).
    rewrite H1, H2, H3, So. done.
Qed.

(** C10. The empty input text is treated as no input text: the run is
    the same, step for step, and nothing is written to the input pipe of
    the child, which is not closed either.  The pipe is written to and
    closed exactly when the input text is not empty. *)
Theorem empty_input_is_no_input cmd log_file w :
  run_with_pty decode cmd (Some "") log_file w = run_with_pty decode cmd None log_file w ∧
  stdin_events (run_with_pty decode cmd (Some "") log_file w).2 = [] ∧
  ∀ input_data,
    stdin_events (run_with_pty decode cmd input_data log_file w).2 =
      match input_data with
      | None => []
      | Some s => if decide (s = "") then [] else [EvStdinWrite s; EvStdinClose]
      end.
Proof.
  assert (∀ input_data,
    stdin_events (run_with_pty decode cmd input_data log_file w).2 =
      send_input input_data) as H.
  { intros input_data. unfold run_with_pty. fold (startup cmd input_data).
    assert (stdin_events (startup cmd input_data) = send_input input_data) as E
      by (by destruct input_data as [[|c s]|]).
    set (tr := startup cmd input_data) in *. clearbody tr.
    destruct (log_path log_file) as [path|]; [destruct (w_open w) as [[]|e]|];
      simpl; rewrite ?stream_stdin; try done.
    unfold stdin_events. rewrite omap_app. fold (stdin_events tr).
    by rewrite E, app_nil_r. }
  split; [done|]. split; [by rewrite H|].
  intros [[|c s]|]; rewrite H; simpl; [done| |done].
  by destruct (decide (String c s = "")).
Qed.

End WithDecode.

(** *** Concrete runs *)

Example run_two_chunks :
  run_with_pty String.string_of_list_byte ["claude"; "-p"] (Some "prompt")
    (Some "out.log") world_two_chunks =
  (Returned (Some 0%Z) "Hello",
   [EvOpenPty; EvSpawn ["claude"; "-p"]; EvCloseSlave;
    EvStdinWrite "prompt"; EvStdinClose; EvOpenLog "out.log";
    EvRead (String.list_byte_of_string "Hel");
    EvStdoutWrite "Hel"; EvStdoutFlush; EvLogWrite "Hel"; EvLogFlush;
    EvRead (String.list_byte_of_string "lo");
    EvStdoutWrite "lo"; EvStdoutFlush; EvLogWrite "lo"; EvLogFlush;
    EvCloseMaster; EvCloseLog]).
Proof. reflexivity. Qed.

(** C1, the claim as stated fails: the flush of standard output raises
    [BrokenPipeError]; line 62 ends the loop, and the text returned holds
    a chunk that the log file, which was asked for, never received. *)
Lemma sink_failure_copies_differ :
  let r := run_with_pty String.string_of_list_byte ["claude"; "-p"]
             (Some "prompt") (Some "out.log") world_stdout_gone in
  r.1 = Returned None "hi" ∧
  chunks_read r.2 = [String.list_byte_of_string "hi"] ∧
  stdout_writes r.2 = ["hi"] ∧
  log_writes r.2 = [] ∧
  ¬ (log_writes r.2 = map String.string_of_list_byte (chunks_read r.2)) ∧
  ¬ (match r.1 with
     | Returned _ captured => captured = join (log_writes r.2)
     | _ => True
     end).
Proof. cbv zeta. repeat split; try reflexivity; by vm_compute. Qed.

(** C2, the claim as stated fails: a log destination is given, [open]
    raises, and a child process was started all the same (line 20 runs
    before line 36). *)
Lemma log_open_failure_child_started :
  let r := run_with_pty String.string_of_list_byte ["claude"; "-p"]
             (Some "prompt") (Some "/no/such/dir/out.log") world_no_log in
  log_path (Some "/no/such/dir/out.log") = Some "/no/such/dir/out.log" ∧
  w_open world_no_log = Raise OSError ∧
  r.1 = Raised OSError ∧
  count is_spawn r.2 = 1 ∧
  r.2 = [EvOpenPty; EvSpawn ["claude"; "-p"]; EvCloseSlave;
         EvStdinWrite "prompt"; EvStdinClose].
Proof. cbv zeta. repeat split; reflexivity. Qed.

(** The theorems on the copies, on a failing [open] and on the closes,
    each at a run. *)

Lemma tee_copies_agree_witness :
  let r := run_with_pty String.string_of_list_byte ["claude"; "-p"]
             (Some "prompt") (Some "out.log") world_two_chunks in
  let texts := map String.string_of_list_byte (chunks_read r.2) in
  stdout_writes r.2 = texts ∧
  log_writes r.2 = texts ∧
  match r.1 with
  | Returned _ captured =>
      captured = join texts ∧ captured = join (stdout_writes r.2)
  | _ => True
  end.
Proof.
  apply (tee_copies_agree String.string_of_list_byte ["claude"; "-p"]
           (Some "prompt") (Some "out.log") world_two_chunks).
  constructor.
Defined.

Lemma log_open_failure_is_after_spawn_witness :
  let r := run_with_pty String.string_of_list_byte ["claude"; "-p"]
             (Some "prompt") (Some "/no/such/dir/out.log") world_no_log in
  r.1 = Raised OSError ∧
  count is_spawn r.2 = 1 ∧ EvSpawn ["claude"; "-p"] ∈ r.2 ∧
  stdin_events r.2 = send_input (Some "prompt") ∧
  chunks_read r.2 = [] ∧ stdout_writes r.2 = [] ∧ log_writes r.2 = [].
Proof.
  exact (log_open_failure_is_after_spawn String.string_of_list_byte
           ["claude"; "-p"] (Some "prompt") (Some "/no/such/dir/out.log")
           world_no_log "/no/such/dir/out.log" OSError eq_refl eq_refl).
Defined.

Lemma closes_exactly_once_witness :
  let r := run_with_pty String.string_of_list_byte ["claude"; "-p"]
             (Some "prompt") (Some "out.log") world_two_chunks in
  count is_close_master r.2 = 1 ∧
  count is_close_log r.2 = count is_open_log r.2 ∧
  count is_open_log r.2 = 1.
Proof.
  apply (closes_exactly_once String.string_of_list_byte ["claude"; "-p"]
           (Some "prompt") (Some "out.log") world_two_chunks); [reflexivity|].
  vm_compute. discriminate.
Defined.

(** C4, where the code fails: the read error ends the loop at line 62,
    before [poll] was ever called, and [process.returncode] is still
    [None] when line 91 returns it, although the child has ended with
    status 1. *)
Lemma read_error_returns_no_status :
  run_with_pty String.string_of_list_byte ["claude"; "-p"] (Some "prompt") None
    world_read_error =
  (Returned None "",
   [EvOpenPty; EvSpawn ["claude"; "-p"]; EvCloseSlave;
    EvStdinWrite "prompt"; EvStdinClose; EvCloseMaster]).
Proof. reflexivity. Qed.

(** *** The shape of a trace *)

Section MoreFacts.

Variable decode : list byte → string.

Lemma bytes_empty_nil data : bytes_empty data = true → data = [].
Proof. by destruct data. Qed.

Lemma chunked_same log st st' st'' :
  chunked decode log st st' → trace st'' = trace st' →
  chunked decode log st st''.
Proof. intros (ds & Hds & H) E. exists ds. by rewrite E. Qed.

Lemma chunked_shaped log ok st st' :
  chunked decode log st st' → shaped decode log ok st st'.
Proof.
  intros (ds & Hds & H). exists ds, []. split; [done|]. split; [by left|].
  by rewrite app_nil_r.
Qed.

(** The loops, chunk by chunk: at the head of a loop the trace holds
    whole chunks, and a loop is left as [last_events] says. *)
Lemma loops_shaped log ks sels st :
  (sinks_ok ks → sinks_ok (sinks st)) →
  shaped decode log (sinks_ok ks) st (drain decode log sels st).2 ∧
  shaped decode log (sinks_ok ks) st (poll_loop decode log sels st).2.
Proof.
  intros Hks.
  set (I := λ st', chunked decode log st st' ∧ (sinks_ok ks → sinks_ok (sinks st'))).
  set (Q := λ st', shaped decode log (sinks_ok ks) st st').
  assert (I st) as Hst.
  { split; [|done]. exists []. split; [done|]. simpl. by rewrite app_nil_r. }
  assert (∀ st', I st' → Q st') as leave.
  { intros st' [H _]. by apply chunked_shaped. }
  assert (∀ st' e rs, I st' → reads st' = Raise e :: rs → Q (set_reads rs st'))
    as read_raises.
  { intros st' e rs [H _] _. apply chunked_shaped. by apply (chunked_same log st st'). }
  assert (∀ st' data rs, I st' → reads st' = Ok data :: rs →
            bytes_empty data = true → Q (emit [EvRead data] (set_reads rs st')))
    as read_eof.
  { intros st' data rs [(ds & Hds & H) _] _ ->%bytes_empty_nil.
    exists ds, [EvRead []]. split; [done|]. split; [right; by left|].
    simpl. by rewrite H, <- app_assoc. }
  assert (∀ st' data rs, I st' → reads st' = Ok data :: rs →
            bytes_empty data = false →
            let r := tee decode log data (emit [EvRead data] (set_reads rs st')) in
            match r.1 with None => I r.2 | Some _ => Q r.2 end) as read_chunk.
  { intros st' data rs [(ds & Hds & H) Hok'] _ Hd. cbv zeta.
    destruct (tee_spec decode log data (emit [EvRead data] (set_reads rs st')))
      as (done & Hp & Htr & Hall & _ & _ & Hok).
    simpl in Htr, Hok.
    destruct (tee decode log data _) as [[e|] st'']; simpl in *.
    - exists ds, (EvRead data :: done). split; [done|]. split.
      + right. right. split.
        * intros Hk. by destruct (Hok (Hok' Hk)).
        * exists data, done. split; [done|]. split; [done|]. split; [|done].
          intros E. by apply Hall in E.
      + rewrite Htr, H. by rewrite <- !app_assoc.
    - split.
      + exists (ds ++ [data]). split; [apply Forall_app; by split; [|constructor]|].
        rewrite Htr, H, (proj1 Hall eq_refl), map_app, concat_app. simpl.
        by rewrite app_nil_r, <- !app_assoc.
      + intros Hk. by destruct (Hok (Hok' Hk)). }
  assert (∀ sels' st', I st' → Q (drain decode log sels' st').2) as Hdrain.
  { intros sels' st' H. by apply (drain_rule decode log I Q). }
  split; [by apply Hdrain|].
  apply (poll_loop_rule decode log I Q); try done.
  - intros st' e ps [H Hok'] _. apply chunked_shaped.
    by apply (chunked_same log st st').
  - intros st' rc ps sels' [H Hok'] _. apply Hdrain. split; [|done].
    by apply (chunked_same log st st').
Qed.

(** The events of a run come in one order only: the start of the child
    and the delivery of the input; the opening of the log; then, chunk by
    chunk, the read, the write to standard output and its flush, the write
    to the log and its flush; then the read of zero bytes, if that is how
    the stream ended, or, if a call on a sink raised, the read of one more
    chunk and the calls on the sinks that went before the one that raised;
    and last, unless the run is stuck in the loop, the close of the
    controller endpoint and then of the log. *)
Theorem run_trace_shape cmd input_data log_file w :
  let r := run_with_pty decode cmd input_data log_file w in
  let log := bool_decide (is_Some (log_path log_file)) in
  try_entered log_file w = true →
  ∃ ds last,
    Forall (λ d, bytes_empty d = false) ds ∧
    last_events decode log (sinks_ok (w_sink w)) last ∧
    r.2 =
      [EvOpenPty; EvSpawn cmd; EvCloseSlave] ++ send_input input_data ++
      match log_path log_file with Some p => [EvOpenLog p] | None => [] end ++
      concat (map (chunk_events decode log) ds) ++ last ++
      match r.1 with
      | Hung => []
      | _ => EvCloseMaster :: (if log then [EvCloseLog] else [])
      end.
Proof.
  cbv zeta. unfold try_entered, run_with_pty.
  assert (∀ log tr,
    ∃ ds last,
      Forall (λ d, bytes_empty d = false) ds ∧
      last_events decode log (sinks_ok (w_sink w)) last ∧
      (stream decode log w tr).2 =
        tr ++ concat (map (chunk_events decode log) ds) ++ last ++
        match (stream decode log w tr).1 with
        | Hung => []
        | _ => EvCloseMaster :: (if log then [EvCloseLog] else [])
        end) as Hstream.
  { intros log tr. rewrite stream_unfold. cbv zeta.
    destruct (loops_shaped log (w_sink w) (w_select w)
                (State (w_read w) (w_poll w) (w_sink w) None [] tr))
      as [_ (ds & last & Hds & Hlast & Htr)]; [done|].
    exists ds, last. split; [done|]. split; [done|].
    destruct (poll_loop decode log (w_select w) _) as [ex st]. simpl in *.
    destruct ex; simpl; rewrite Htr, <- ?app_assoc; try done.
    by rewrite app_nil_r. }
  destruct (log_path log_file) as [path|].
  - destruct (w_open w) as [[]|e]; [|done]. intros _.
    destruct (Hstream true
                (([EvOpenPty; EvSpawn cmd; EvCloseSlave] ++ send_input input_data)
                 ++ [EvOpenLog path])) as (ds & last & Hds & Hlast & Htr).
    exists ds, last. split; [done|]. split; [done|].
    rewrite Htr. by rewrite <- !app_assoc.
  - intros _.
    destruct (Hstream false
                ([EvOpenPty; EvSpawn cmd; EvCloseSlave] ++ send_input input_data))
      as (ds & last & Hds & Hlast & Htr).
    exists ds, last. split; [done|]. split; [done|].
    rewrite Htr. by rewrite <- !app_assoc.
Qed.

(** *** When a call on a sink raises *)

(** In every run, also when a write or a flush on standard output or on
    the log raises: the text returned is the concatenation of the decoded
    chunks read; what was written to the log is the beginning of what was
    written to standard output, which is the beginning of the chunks
    read; and only the last chunk read can be missing from standard
    output, and from the log when there is one. *)
Theorem sink_failure_misses_one_chunk cmd input_data log_file w :
  let r := run_with_pty decode cmd input_data log_file w in
  let texts := map decode (chunks_read r.2) in
  stdout_writes r.2 `prefix_of` texts ∧
  log_writes r.2 `prefix_of` stdout_writes r.2 ∧
  length texts ≤ S (length (stdout_writes r.2)) ∧
  match log_path log_file with
  | Some _ => length texts ≤ S (length (log_writes r.2))
  | None => log_writes r.2 = []
  end ∧
  match r.1 with
  | Returned _ captured => captured = join texts
  | _ => True
  end.
Proof.
  cbv zeta.
  destruct (run_tee decode cmd input_data log_file w)
    as [(Ho & Hl & Hlen & Hret) _]. cbv zeta in *.
  split; [done|].
  destruct (log_path log_file) as [path|]; simpl in *.
  - split; [done|]. split; [|done].
    apply prefix_length in Hl. lia.
  - rewrite Hl. split; [apply prefix_nil|]. done.
Qed.

(** *** The status returned *)

(** A status that is returned is the first status that [poll] answered,
    after answering [None] every time before: the function makes no
    status up, and it stops polling at the first one. *)
Theorem status_is_first_polled cmd input_data log_file w rc captured :
  (run_with_pty decode cmd input_data log_file w).1 =
    Returned (Some rc) captured →
  ∃ n, w_poll w !! n = Some (Ok (Some rc)) ∧
       ∀ i, i < n → w_poll w !! i = Some (Ok None).
Proof.
  unfold run_with_pty.
  assert (∀ log tr, (stream decode log w tr).1 = Returned (Some rc) captured →
    ∃ n, w_poll w !! n = Some (Ok (Some rc)) ∧
         ∀ i, i < n → w_poll w !! i = Some (Ok None)) as Hstream.
  { intros log tr. rewrite stream_unfold. cbv zeta.
    pose proof (poll_loop_first_status decode log (w_select w)
                  (State (w_read w) (w_poll w) (w_sink w) None [] tr) rc eq_refl)
      as H.
    destruct (poll_loop decode log (w_select w) _) as [ex st]. simpl in *.
    destruct ex; simpl; [|done..]. intros [= Hrc _]. by apply H. }
  destruct (log_path log_file) as [path|]; [|apply Hstream].
  destruct (w_open w) as [[]|e]; [apply Hstream|done].
Qed.

(** *** The drain loop *)

Lemma drain_all log ds sels rs st :
  Forall (λ d, bytes_empty d = false) ds →
  sinks_ok (sinks st) →
  reads st = map Ok ds ++ rs →
  let r := drain decode log (replicate (length ds) (Ok true) ++ Ok false :: sels) st in
  r.1 = Break ∧
  output_chunks r.2 = output_chunks st ++ map decode ds ∧
  returncode r.2 = returncode st.
Proof.
  intros Hds. revert st. induction Hds as [|d ds Hd Hds IH]; intros st Hks Hreads.
  { cbv zeta. simpl. by rewrite app_nil_r. }
  cbv zeta. simpl. rewrite Hreads. simpl. rewrite Hd.
  destruct (tee_spec decode log d (emit [EvRead d] (set_reads (map Ok ds ++ rs) st)))
    as (done & _ & _ & _ & (Hr & _ & Hrc) & Hout & Hok).
  destruct (Hok Hks) as [Hnone Hks'].
  destruct (tee decode log d _) as [[e|] st1]; simpl in *; [done|].
  destruct (IH st1 Hks' Hr) as (H1 & H2 & H3).
  split; [done|]. split.
  - rewrite H2, Hout. by rewrite <- app_assoc.
  - by rewrite H3, Hrc.
Qed.

(** What the child wrote before it ended is not lost, as long as no call
    on a sink raises: when [poll] sees that the child has ended while
    chunks are still to be read, the drain loop reads them all, and the
    function returns the status with all of them. *)
Theorem late_output_is_captured cmd input_data log_file w ds rc :
  try_entered log_file w = true →
  sinks_ok (w_sink w) →
  Forall (λ d, bytes_empty d = false) ds →
  w_select w = Ok false :: replicate (length ds) (Ok true) ++ [Ok false] →
  w_read w = map Ok ds →
  w_poll w = [Ok (Some rc)] →
  (run_with_pty decode cmd input_data log_file w).1 =
    Returned (Some rc) (join (map decode ds)).
Proof.
  intros Hopen Hks Hds Hsel Hread Hpoll.
  assert (∀ log tr, (stream decode log w tr).1 =
                    Returned (Some rc) (join (map decode ds))) as Hstream.
  { intros log tr. rewrite stream_unfold. cbv zeta. rewrite Hsel, Hpoll. simpl.
    destruct (drain_all log ds [] []
                (set_returncode (Some rc)
                   (set_polls [] (State (w_read w) [Ok (Some rc)] (w_sink w)
                                        None [] tr))) Hds)
      as (H1 & H2 & H3); [done| |].
    { simpl. by rewrite Hread, app_nil_r. }
    rewrite H1, H2, H3. done. }
  unfold try_entered, run_with_pty in *.
  destruct (log_path log_file) as [path|]; [|apply Hstream].
  destruct (w_open w) as [[]|e]; [apply Hstream|done].
Qed.

(** *** The empty log path *)

Lemma stream_no_log w tr :
  count is_open_log tr = 0 → count is_close_log tr = 0 → log_writes tr = [] →
  let r := stream decode false w tr in
  count is_open_log r.2 = 0 ∧ count is_close_log r.2 = 0 ∧ log_writes r.2 = [].
Proof.
  intros Ho Hc Hl. cbv zeta. rewrite stream_unfold. cbv zeta.
  set (I := λ st : state,
         count is_open_log (trace st) = 0 ∧ count is_close_log (trace st) = 0 ∧
         log_writes (trace st) = []).
  destruct (loops_keep decode false I) with
    (sels := w_select w) (st := State (w_read w) (w_poll w) (w_sink w) None [] tr)
    as [_ (Eo & Ec & El)]; try done.
  { intros st data rs (H1 & H2 & H3). unfold I, log_writes in *. simpl.
    by rewrite !count_app, omap_app, H1, H2, H3. }
  { intros st data (H1 & H2 & H3).
    destruct (tee_spec decode false data st) as (done & Hp & Htr & _).
    destruct (sink_prefix_cases false (decode data) done Hp) as (Hloop & _ & Hw).
    unfold I, log_writes in *. rewrite Htr, !count_app, omap_app, H1, H2, H3.
    rewrite (count_none is_open_log is_loop_event done),
      (count_none is_close_log is_loop_event done); try done; try by intros [].
    by destruct Hw as [[_ ->]|[[_ ->]|[? _]]]. }
  destruct (poll_loop decode false (w_select w) _) as [ex st]. simpl in *.
  unfold log_writes in *.
  destruct ex; simpl; rewrite ?count_app, ?omap_app, Eo, Ec, El; done.
Qed.

(** A log path that is the empty text is no log path: [open] is not
    called, so that what it would answer does not matter, and the run
    opens, writes and closes no log. *)
Theorem empty_log_path_is_no_log cmd input_data w :
  let r := run_with_pty decode cmd input_data (Some "") w in
  r = run_with_pty decode cmd input_data None w ∧
  (∀ answer,
     run_with_pty decode cmd input_data (Some "")
       (World answer (w_select w) (w_read w) (w_poll w) (w_sink w)) = r) ∧
  count is_open_log r.2 = 0 ∧ count is_close_log r.2 = 0 ∧ log_writes r.2 = [].
Proof.
  cbv zeta. split; [done|]. split.
  { intros answer. unfold run_with_pty. simpl. by rewrite !stream_unfold. }
  unfold run_with_pty. simpl.
  destruct (send_input_quiet input_data) as (_ & _ & Ql & _ & Qc & Qo & _).
  apply stream_no_log; simpl; done.
Qed.

(** *** [main] *)

Lemma spawned_loop evs : forallb is_loop_event evs = true → spawned evs = [].
Proof.
  induction evs as [|e evs IH]; simpl; [done|].
  intros [He Hevs]%andb_prop. unfold spawned in *. simpl.
  rewrite (IH Hevs). by destruct e.
Qed.

Lemma stream_spawned log w tr :
  spawned (stream decode log w tr).2 = spawned tr.
Proof.
  rewrite stream_unfold. cbv zeta.
  destruct (poll_loop_grows decode log (w_select w)
              (State (w_read w) (w_poll w) (w_sink w) None [] tr))
    as (evs & Htr & Hevs).
  destruct (poll_loop decode log (w_select w) _) as [ex st]. simpl in *.
  pose proof (spawned_loop evs Hevs) as Es. unfold spawned in *.
  destruct ex; simpl; rewrite Htr, ?omap_app, Es, ?app_nil_r; [| |done];
    destruct log; simpl; by rewrite app_nil_r.
Qed.

Lemma run_spawned cmd input_data log_file w :
  spawned (run_with_pty decode cmd input_data log_file w).2 = [cmd].
Proof.
  assert (spawned ([EvOpenPty; EvSpawn cmd; EvCloseSlave] ++ send_input input_data)
          = [cmd]) as E by (by destruct input_data as [[|c s]|]).
  unfold run_with_pty.
  set (tr := [EvOpenPty; EvSpawn cmd; EvCloseSlave] ++ send_input input_data) in *.
  clearbody tr.
  destruct (log_path log_file) as [path|]; [destruct (w_open w) as [[]|e]|];
    simpl; rewrite ?stream_spawned; try done.
  unfold spawned in *. rewrite omap_app, E. done.
Qed.

Lemma run_stdin_events cmd input_data log_file w :
  stdin_events (run_with_pty decode cmd input_data log_file w).2 =
  send_input input_data.
Proof.
  unfold run_with_pty. fold (startup cmd input_data).
  assert (stdin_events (startup cmd input_data) = send_input input_data) as E
    by (by destruct input_data as [[|c s]|]).
  set (tr := startup cmd input_data) in *. clearbody tr.
  destruct (log_path log_file) as [path|]; [destruct (w_open w) as [[]|e]|];
    simpl; rewrite ?(stream_stdin decode); try done.
  unfold stdin_events. rewrite omap_app. fold (stdin_events tr).
  by rewrite E, app_nil_r.
Qed.

(** [main] starts a child only once it has read the prompt file, it
    starts one child, and the child is [claude -p]: with fewer than two
    arguments, or a prompt file that cannot be read, no child is
    started. *)
Theorem main_starts_one_child argv read_file w :
  spawned (m_trace (main decode argv read_file w)) =
    match argv with
    | _ :: prompt_file :: _ =>
        match read_file prompt_file with
        | Ok _ => [["claude"; "-p"]]
        | Raise _ => []
        end
    | _ => []
    end.
Proof.
  destruct argv as [|prog [|prompt_file rest]]; [done..|].
  unfold main. destruct (read_file prompt_file) as [prompt|e]; [|done].
  simpl. apply run_spawned.
Qed.

(** The status [main] exits with is 1 when it was given no prompt file,
    and otherwise a status that [poll] answered. *)
Theorem main_exit_status argv read_file w rc :
  m_exit (main decode argv read_file w) = Exit (Some rc) →
  (length argv < 2 ∧ rc = 1%Z) ∨ (2 ≤ length argv ∧ Ok (Some rc) ∈ w_poll w).
Proof.
  destruct argv as [|prog [|prompt_file rest]]; simpl.
  - intros [= <-]. left. split; [lia|done].
  - intros [= <-]. left. split; [lia|done].
  - destruct (read_file prompt_file) as [prompt|e]; [|done]. simpl.
    intros H. right. split; [lia|].
    destruct (run_with_pty decode _ _ _ w).1 as [rc' captured| |] eqn:Hrun;
      [|done..].
    injection H as ->.
    by apply (returned_status_from_poll decode _ _ _ _ _ _ Hrun).
Qed.

(** The prompt is what the child is given on its input pipe, which is
    then closed; when the prompt file is empty, nothing is written to the
    pipe and it is not closed. *)
Theorem main_delivers_prompt argv read_file w prog prompt_file rest prompt :
  argv = prog :: prompt_file :: rest →
  read_file prompt_file = Ok prompt →
  stdin_events (m_trace (main decode argv read_file w)) =
    if decide (prompt = "") then [] else [EvStdinWrite prompt; EvStdinClose].
Proof.
  intros -> Hread. unfold main. rewrite Hread. simpl.
  rewrite run_stdin_events. destruct prompt as [|c prompt]; simpl; [done|].
  by destruct (decide (String c prompt = "")).
Qed.

End MoreFacts.

(** The theorems above that have a hypothesis, each at a run. *)

Lemma run_trace_shape_witness :
  ∃ ds last,
    Forall (λ d, bytes_empty d = false) ds ∧
    last_events String.string_of_list_byte true (sinks_ok (w_sink world_two_chunks))
      last ∧
    (run_with_pty String.string_of_list_byte ["claude"; "-p"] (Some "prompt")
       (Some "out.log") world_two_chunks).2 =
      [EvOpenPty; EvSpawn ["claude"; "-p"]; EvCloseSlave] ++
      send_input (Some "prompt") ++ [EvOpenLog "out.log"] ++
      concat (map (chunk_events String.string_of_list_byte true) ds) ++ last ++
      [EvCloseMaster; EvCloseLog].
Proof.
  exact (run_trace_shape String.string_of_list_byte ["claude"; "-p"]
           (Some "prompt") (Some "out.log") world_two_chunks eq_refl).
Defined.

Lemma status_is_first_polled_witness :
  ∃ n, w_poll world_two_chunks !! n = Some (Ok (Some 0%Z)) ∧
       ∀ i, i < n → w_poll world_two_chunks !! i = Some (Ok None).
Proof.
  exact (status_is_first_polled String.string_of_list_byte ["claude"; "-p"]
           (Some "prompt") (Some "out.log") world_two_chunks 0%Z "Hello" eq_refl).
Defined.

Lemma late_output_is_captured_witness :
  (run_with_pty String.string_of_list_byte ["claude"; "-p"] (Some "prompt") None
     world_late_output).1 = Returned (Some 3%Z) "abc".
Proof.
  apply (late_output_is_captured String.string_of_list_byte ["claude"; "-p"]
           (Some "prompt") None world_late_output
           [String.list_byte_of_string "a"; String.list_byte_of_string "b";
            String.list_byte_of_string "c"] 3%Z); try reflexivity.
  - constructor.
  - repeat constructor.
Defined.

Lemma main_exit_status_witness :
  (length ["pty_runner.py"; "prompt.md"; "out.log"] < 2 ∧ 0%Z = 1%Z) ∨
  (2 ≤ length ["pty_runner.py"; "prompt.md"; "out.log"] ∧
   Ok (Some 0%Z) ∈ w_poll world_two_chunks).
Proof.
  exact (main_exit_status String.string_of_list_byte
           ["pty_runner.py"; "prompt.md"; "out.log"] one_prompt world_two_chunks
           0%Z eq_refl).
Defined.

Lemma main_delivers_prompt_witness :
  stdin_events
    (m_trace (main String.string_of_list_byte
                ["pty_runner.py"; "prompt.md"; "out.log"] one_prompt
                world_two_chunks)) =
  [EvStdinWrite "Say hi"; EvStdinClose].
Proof.
  exact (main_delivers_prompt String.string_of_list_byte
           ["pty_runner.py"; "prompt.md"; "out.log"] one_prompt world_two_chunks
           "pty_runner.py" "prompt.md" ["out.log"] "Say hi" eq_refl eq_refl).
Defined.

End PtyRunnerFacts.

(** ** The streaming event decoder *)

Module StreamParserFacts.

Import StreamParser.

Section WithInterpreter.

Context `{py : !interpreter}.

(** *** What one block can do *)

Lemma emit_text_step text st : block_step st (emit_text text st).
Proof.
  unfold emit_text. destruct (truthy text) eqn:Ht; [|apply step_skip].
  destruct text as [|b|n|t|items|fields]; try apply step_skip.
  unfold mbind, M_bind, get_full_text.
  destruct (contains t (full_text st)) eqn:Hc; [apply step_skip|].
  unfold emit, append_text. simpl.
  apply step_text; [|done]. by intros ->.
Qed.

Lemma result_block_step block st : block_step st (result_block block st).
Proof.
  unfold result_block, mbind, M_bind, eval.
  destruct (py_get block (txt "type") JNull) as [kind|e]; [|apply step_skip].
  destruct (py_eq_str kind (txt "text")); [|apply step_skip].
  destruct (py_get block (txt "text") (JStr [])) as [text|e]; [|apply step_skip].
  apply emit_text_step.
Qed.

Lemma assistant_block_step block st : block_step st (assistant_block block st).
Proof.
  unfold assistant_block, mbind, M_bind, eval.
  destruct (py_get block (txt "type") JNull) as [kind|e]; [|apply step_skip].
  destruct (py_eq_str kind (txt "tool_use")).
  - destruct (py_get block (txt "name") _) as [tool_name|e]; [|apply step_skip].
    destruct (py_get block (txt "id") _) as [tool_id|e]; [|apply step_skip].
    destruct (hash_key tool_id) as [k|e]; [|apply step_skip].
    unfold get_seen_tools.
    destruct (decide (k ∈ seen_tools st)) as [Hin|Hin]; [apply step_skip|].
    unfold add_seen, emit.
    destruct (py_get block (txt "input") _) as [inp|e]; [|by apply step_marked].
    destruct (tool_detail tool_name inp) as [detail|e]; [|by apply step_marked].
    simpl. by apply step_announce.
  - destruct (py_eq_str kind (txt "text")); [|apply step_skip].
    destruct (py_get block (txt "text") (JStr [])) as [text|e]; [|apply step_skip].
    apply emit_text_step.
Qed.

(** *** What the [except] clause of line 81 catches *)

Lemma no_decode_error_ret {A} (a : A) : no_decode_error (mret a).
Proof. by intros st. Qed.

Lemma no_decode_error_eval {A} (r : res A) :
  r ≠ Exc JSONDecodeError → no_decode_error (eval r).
Proof. by intros Hr st. Qed.

Lemma no_decode_error_bind {A B} (m : M A) (k : A → M B) :
  no_decode_error m → (∀ a, no_decode_error (k a)) → no_decode_error (m ≫= k).
Proof.
  intros Hm Hk st. unfold mbind, M_bind. specialize (Hm st).
  destruct (m st) as [st' [a|e]]; [apply Hk|].
  simpl in *. intros [= ->]. by apply Hm.
Qed.

Lemma no_decode_error_for_each {A} (body : A → M unit) xs :
  (∀ x, no_decode_error (body x)) → no_decode_error (for_each body xs).
Proof.
  intros Hb. induction xs as [|x xs IH]; simpl; [apply no_decode_error_ret|].
  apply no_decode_error_bind; [apply Hb|]. by intros _.
Qed.

Lemma py_get_no_decode_error v key default :
  py_get v key default ≠ Exc JSONDecodeError.
Proof. destruct v; try done. simpl. by destruct (dict_get key fields). Qed.

Lemma py_take_no_decode_error n v : py_take n v ≠ Exc JSONDecodeError.
Proof. destruct v; try done. simpl. by destruct hashable_slices. Qed.

Lemma tool_detail_no_decode_error name inp :
  tool_detail name inp ≠ Exc JSONDecodeError.
Proof.
  unfold tool_detail.
  repeat match goal with
         | |- context [py_eq_str name ?lit] => destruct (py_eq_str name lit)
         end; try apply py_get_no_decode_error.
  - pose proof (py_get_no_decode_error inp (txt "pattern") (JStr [])) as H1.
    pose proof (py_get_no_decode_error inp (txt "path") (JStr (txt "."))) as H2.
    destruct (py_get inp (txt "pattern") _) as [pattern|e1];
      destruct (py_get inp (txt "path") _) as [path|e2]; done.
  - pose proof (py_get_no_decode_error inp (txt "command") (JStr [])) as H1.
    destruct (py_get inp (txt "command") _) as [command|e]; [|done].
    apply py_take_no_decode_error.
Qed.

Lemma emit_text_no_decode_error text : no_decode_error (emit_text text).
Proof.
  intros st. pose proof (emit_text_step text st) as Hstep.
  unfold emit_text in *. destruct (truthy text); [|done].
  destruct text as [|b|n|t|items|fields]; try done.
  unfold mbind, M_bind, get_full_text. by destruct (contains t (full_text st)).
Qed.

Lemma result_block_no_decode_error block : no_decode_error (result_block block).
Proof.
  unfold result_block.
  apply no_decode_error_bind;
    [apply no_decode_error_eval, py_get_no_decode_error|]. intros kind.
  destruct (py_eq_str kind (txt "text")); [|apply no_decode_error_ret].
  apply no_decode_error_bind;
    [apply no_decode_error_eval, py_get_no_decode_error|]. intros text.
  apply emit_text_no_decode_error.
Qed.

Lemma assistant_block_no_decode_error block :
  no_decode_error (assistant_block block).
Proof.
  unfold assistant_block.
  apply no_decode_error_bind;
    [apply no_decode_error_eval, py_get_no_decode_error|]. intros kind.
  destruct (py_eq_str kind (txt "tool_use")).
  - apply no_decode_error_bind;
      [apply no_decode_error_eval, py_get_no_decode_error|]. intros tool_name.
    apply no_decode_error_bind;
      [apply no_decode_error_eval, py_get_no_decode_error|]. intros tool_id.
    apply no_decode_error_bind;
      [apply no_decode_error_eval; by destruct tool_id|]. intros k.
    apply no_decode_error_bind; [by intros st|]. intros seen.
    destruct (decide (k ∈ seen)); [apply no_decode_error_ret|].
    apply no_decode_error_bind; [by intros st|]. intros _.
    apply no_decode_error_bind;
      [apply no_decode_error_eval, py_get_no_decode_error|]. intros inp.
    apply no_decode_error_bind;
      [apply no_decode_error_eval, tool_detail_no_decode_error|]. intros detail.
    by intros st.
  - destruct (py_eq_str kind (txt "text")); [|apply no_decode_error_ret].
    apply no_decode_error_bind;
      [apply no_decode_error_eval, py_get_no_decode_error|]. intros text.
    apply emit_text_no_decode_error.
Qed.

Lemma for_content_no_decode_error body content :
  (∀ x, no_decode_error (body x)) → no_decode_error (for_content body content).
Proof.
  intros Hb. destruct content; simpl; try apply no_decode_error_ret.
  by apply no_decode_error_for_each.
Qed.

Lemma process_record_no_decode_error obj : no_decode_error (process_record obj).
Proof.
  unfold process_record.
  apply no_decode_error_bind;
    [apply no_decode_error_eval, py_get_no_decode_error|]. intros msg_type.
  destruct (py_eq_str msg_type (txt "assistant")).
  { apply no_decode_error_bind;
      [apply no_decode_error_eval, py_get_no_decode_error|]. intros message.
    apply no_decode_error_bind;
      [apply no_decode_error_eval, py_get_no_decode_error|]. intros content.
    apply for_content_no_decode_error, assistant_block_no_decode_error. }
  destruct (py_eq_str msg_type (txt "result")); [|apply no_decode_error_ret].
  apply no_decode_error_bind;
    [apply no_decode_error_eval, py_get_no_decode_error|]. intros fallback.
  apply no_decode_error_bind;
    [apply no_decode_error_eval, py_get_no_decode_error|]. intros result.
  unfold render_result. destruct result; try apply no_decode_error_ret.
  apply no_decode_error_bind;
    [apply no_decode_error_eval, py_get_no_decode_error|]. intros content.
  apply for_content_no_decode_error, result_block_no_decode_error.
Qed.

(** The clause of line 81 is reached from line 29 only: what a line does,
    by what [json.loads] makes of it. *)
Lemma process_line_unfold json_loads line st :
  process_line json_loads line st =
    let st1 := State (full_text st) (seen_tools st)
                     (trace st ++ [EvArchive line; EvArchiveFlush]) in
    if str_truthy (strip line) then
      match json_loads (strip line) with
      | Val obj => process_record obj st1
      | Exc JSONDecodeError => (st1, Val ())
      | Exc e => (st1, Exc e)
      end
    else (st1, Val ()).
Proof.
  unfold process_line, mbind at 1 2, M_bind at 1 2, emit. simpl.
  rewrite <- app_assoc. simpl.
  destruct (str_truthy (strip line)); [|done].
  unfold except_decode_error, mbind, M_bind, eval.
  destruct (json_loads (strip line)) as [obj|e]; [|by destruct e].
  pose proof (process_record_no_decode_error obj
                (State (full_text st) (seen_tools st)
                       (trace st ++ [EvArchive line; EvArchiveFlush]))) as Hno.
  destruct (process_record obj _) as [st' [[]|e]]; [done|].
  by destruct e.
Qed.

(** *** Statements that keep a property of the state *)

Lemma keeps_ret {A} strict I (a : A) : keeps strict I (mret a).
Proof. by intros st. Qed.

Lemma keeps_eval {A} strict I (r : res A) : keeps strict I (eval r).
Proof. by intros st. Qed.

Lemma keeps_bind {A B} strict I (m : M A) (k : A → M B) :
  keeps strict I m → (∀ a, keeps strict I (k a)) → keeps strict I (m ≫= k).
Proof.
  intros Hm Hk st Hst. unfold mbind, M_bind.
  specialize (Hm st Hst). specialize (Hk).
  destruct (m st) as [st' [a|e]]; simpl in *.
  - intros Hv. apply Hk; [by apply Hm|done].
  - intros Hv. apply Hm. intros ->. by specialize (Hv eq_refl).
Qed.

Lemma keeps_for_each {A} strict I (body : A → M unit) xs :
  (∀ x, keeps strict I (body x)) → keeps strict I (for_each body xs).
Proof.
  intros Hb. induction xs as [|x xs IH]; simpl; [apply keeps_ret|].
  apply keeps_bind; [apply Hb|]. by intros _.
Qed.

Lemma keeps_for_content strict I body content :
  (∀ x, keeps strict I (body x)) → keeps strict I (for_content body content).
Proof.
  intros Hb. destruct content; simpl; try apply keeps_ret.
  by apply keeps_for_each.
Qed.

(** A property that every step of a block keeps is kept by a record. *)
Lemma keeps_process_record strict I obj :
  (∀ st r, I st → block_step st r → (strict = true → is_val r.2) → I r.1) →
  keeps strict I (process_record obj).
Proof.
  intros Hstep.
  assert (∀ b, keeps strict I (assistant_block b)) as Ha
    by (intros b st Hst; exact (Hstep st _ Hst (assistant_block_step b st))).
  assert (∀ b, keeps strict I (result_block b)) as Hr
    by (intros b st Hst; exact (Hstep st _ Hst (result_block_step b st))).
  unfold process_record.
  apply keeps_bind; [apply keeps_eval|]. intros msg_type.
  destruct (py_eq_str msg_type (txt "assistant")).
  { apply keeps_bind; [apply keeps_eval|]. intros message.
    apply keeps_bind; [apply keeps_eval|]. intros content.
    by apply keeps_for_content. }
  destruct (py_eq_str msg_type (txt "result")); [|apply keeps_ret].
  apply keeps_bind; [apply keeps_eval|]. intros fallback.
  apply keeps_bind; [apply keeps_eval|]. intros result.
  unfold render_result. destruct result; try apply keeps_ret.
  apply keeps_bind; [apply keeps_eval|]. intros content.
  by apply keeps_for_content.
Qed.

Lemma archiving_filing ev : is_archiving ev = true → is_filing ev = true.
Proof. by destruct ev. Qed.

Section Keeping.

Variable json_loads : str → res json.
Variable strict : bool.
Variable I : state → Prop.

Hypothesis I_archiving : ∀ st ev,
  is_archiving ev = true → I st →
  I (State (full_text st) (seen_tools st) (trace st ++ [ev])).

Hypothesis I_step : ∀ st r,
  I st → block_step st r → (strict = true → is_val r.2) → I r.1.

Hypothesis I_narrative : ∀ st,
  I st →
  I (State (full_text st) (seen_tools st)
           (trace st ++ [EvNarrative (full_text st)])).

Lemma keeps_emit ev : is_archiving ev = true → keeps strict I (emit ev).
Proof. intros Hev st Hst _. by apply I_archiving. Qed.

Lemma keeps_process_line line : keeps strict I (process_line json_loads line).
Proof.
  intros st Hst. rewrite process_line_unfold. cbv zeta.
  assert (I (State (full_text st) (seen_tools st)
                   (trace st ++ [EvArchive line; EvArchiveFlush]))) as H1.
  { change [EvArchive line; EvArchiveFlush]
      with ([EvArchive line] ++ [EvArchiveFlush]).
    rewrite app_assoc.
    apply (I_archiving (State _ _ (trace st ++ [EvArchive line]))
             EvArchiveFlush eq_refl).
    by apply (I_archiving st). }
  destruct (str_truthy (strip line)); [|done].
  destruct (json_loads (strip line)) as [obj|e]; [|by destruct e].
  by apply keeps_process_record.
Qed.

Lemma keeps_run lines :
  keeps strict I (for_each (process_line json_loads) lines;; save_narrative).
Proof.
  apply keeps_bind; [apply keeps_for_each, keeps_process_line|]. intros _.
  unfold save_narrative, get_full_text.
  intros st Hst _. unfold mbind, M_bind. simpl. by apply I_narrative.
Qed.

End Keeping.

(** *** Counting in a trace *)

Lemma announced_app k tr1 tr2 :
  announced k (tr1 ++ tr2) = announced k tr1 + announced k tr2.
Proof. unfold announced, progress. by rewrite omap_app, filter_app, length_app. Qed.

Lemma printed_app t tr1 tr2 :
  printed t (tr1 ++ tr2) = printed t tr1 + printed t tr2.
Proof. unfold printed, texts. by rewrite omap_app, filter_app, length_app. Qed.

Lemma announced_one k ev :
  announced k [ev] =
    match ev with
    | EvProgress k' _ => if decide (k' = k) then 1 else 0
    | _ => 0
    end.
Proof.
  destruct ev as [| |k' line| |]; try done.
  unfold announced, progress. simpl. rewrite filter_cons. simpl.
  by destruct (decide (k' = k)).
Qed.

Lemma printed_one t ev :
  printed t [ev] =
    match ev with
    | EvText t' => if decide (t' = t) then 1 else 0
    | _ => 0
    end.
Proof.
  destruct ev as [| | |t'|]; try done.
  unfold printed, texts. simpl. rewrite filter_cons.
  by destruct (decide (t' = t)).
Qed.

Lemma announced_filing k tr ev :
  is_filing ev = true → announced k (tr ++ [ev]) = announced k tr.
Proof. intros H. rewrite announced_app, announced_one. destruct ev; try done; lia. Qed.

Lemma printed_filing t tr ev :
  is_filing ev = true → printed t (tr ++ [ev]) = printed t tr.
Proof. intros H. rewrite printed_app, printed_one. destruct ev; try done; lia. Qed.

Lemma texts_filing tr ev : is_filing ev = true → texts (tr ++ [ev]) = texts tr.
Proof.
  intros H. unfold texts. rewrite omap_app. destruct ev; try done; simpl;
    by rewrite app_nil_r.
Qed.

(** *** Each tool invocation is announced at most once *)

Lemma seen_inv_step st r : seen_inv st → block_step st r → seen_inv r.1.
Proof.
  intros Hinv Hstep k. destruct (Hinv k) as [Hle Hnot].
  destruct Hstep as [r|k' e Hk'|k' line Hk'|t Ht Hc]; simpl.
  - done.
  - split; [done|]. intros Hk. apply Hnot. set_solver.
  - rewrite announced_app, announced_one.
    destruct (decide (k' = k)) as [->|Hne].
    + rewrite (Hnot Hk'). split; [lia|]. set_solver.
    + split; [lia|]. intros Hk. rewrite Hnot; [lia|set_solver].
  - rewrite announced_app, announced_one. split; [lia|]. intros Hk.
    rewrite (Hnot Hk). lia.
Qed.

Lemma seen_inv_filing st ev :
  is_filing ev = true → seen_inv st →
  seen_inv (State (full_text st) (seen_tools st) (trace st ++ [ev])).
Proof.
  intros Hev Hinv k. simpl. rewrite (announced_filing k _ ev Hev). apply Hinv.
Qed.

Lemma seen_announced_step st r :
  seen_announced st → block_step st r → is_val r.2 → seen_announced r.1.
Proof.
  intros [Hinv Hall] Hstep Hval. split; [by eapply seen_inv_step|].
  intros k. destruct Hstep as [r|k' e Hk'|k' line Hk'|t Ht Hc]; simpl.
  - apply Hall.
  - done.
  - rewrite announced_app, announced_one. intros Hk.
    destruct (decide (k' = k)) as [->|Hne].
    + destruct (Hinv k) as [_ Hnot]. rewrite (Hnot Hk'). lia.
    + rewrite Hall; [lia|].
      apply elem_of_union in Hk as [Hk%elem_of_singleton|Hk]; [congruence|done].
  - rewrite announced_app, announced_one. intros Hk. rewrite (Hall k Hk). lia.
Qed.

Lemma seen_announced_filing st ev :
  is_filing ev = true → seen_announced st →
  seen_announced (State (full_text st) (seen_tools st) (trace st ++ [ev])).
Proof.
  intros Hev [Hinv Hall]. split; [by apply seen_inv_filing|].
  intros k Hk. simpl in *. rewrite (announced_filing k _ ev Hev). by apply Hall.
Qed.

(** [seen_tools] only grows. *)
Lemma seen_grows_step k st r :
  k ∈ seen_tools st → block_step st r → k ∈ seen_tools r.1.
Proof. intros Hk [r'|k' e Hk'|k' line Hk'|t Ht Hc]; simpl; set_solver. Qed.

(** *** A tool invocation that appears is announced *)

Lemma for_each_reaches {A} (Q : state → Prop) (body : A → M unit) xs x :
  (∀ y, keeps false Q (body y)) →
  x ∈ xs →
  (∀ st, is_val (body x st).2 → Q (body x st).1) →
  ∀ st, is_val (for_each body xs st).2 → Q (for_each body xs st).1.
Proof.
  intros Hkeep Hx Hbody. induction xs as [|y xs IH]; [by inversion Hx|].
  intros st. simpl. unfold mbind, M_bind.
  apply elem_of_cons in Hx as [<-|Hx].
  - specialize (Hbody st). destruct (body x st) as [st' [[]|e]]; simpl in *; [|done].
    intros Hv. apply (keeps_for_each false Q body xs Hkeep); [by apply Hbody|done].
  - destruct (body y st) as [st' [[]|e]]; simpl; [|done]. by apply IH.
Qed.

Lemma assistant_block_marks block k st :
  block_key block = Some k →
  is_val (assistant_block block st).2 →
  k ∈ seen_tools (assistant_block block st).1.
Proof.
  unfold block_key, assistant_block, mbind, M_bind, eval.
  destruct (py_get block (txt "type") JNull) as [kind|e]; [|done].
  destruct block as [| | | | |fields]; try done. simpl.
  destruct (dict_get (txt "id") fields) as [tool_id|];
    (destruct (py_eq_str kind (txt "tool_use")); [|done]);
    destruct (dict_get (txt "name") fields) as [tool_name|].
  all: match goal with
       | |- context [hash_key ?v] => destruct (hash_key v) as [k'|e]; [|done]
       end.
  all: intros [= ->]; unfold get_seen_tools;
       destruct (decide (k ∈ seen_tools st)) as [Hin|Hin]; [done|].
  all: unfold add_seen, emit;
       destruct (dict_get (txt "input") fields) as [inp|];
       match goal with
       | |- context [tool_detail ?n ?i] => destruct (tool_detail n i) as [d|e]
       end; simpl; try done; intros _; set_solver.
Qed.

Section Reaching.

Variable json_loads : str → res json.
Variable k : hkey.

Let Q (st : state) : Prop := k ∈ seen_tools st.

Lemma seen_member_step st r : Q st → block_step st r → (false = true → is_val r.2) → Q r.1.
Proof. intros Hst Hstep _. by eapply seen_grows_step. Qed.

Lemma seen_member_archiving st ev :
  is_archiving ev = true → Q st →
  Q (State (full_text st) (seen_tools st) (trace st ++ [ev])).
Proof. by intros _ Hst. Qed.

Lemma process_record_marks obj block st :
  block ∈ assistant_blocks obj →
  block_key block = Some k →
  is_val (process_record obj st).2 →
  Q (process_record obj st).1.
Proof.
  unfold assistant_blocks, process_record, mbind, M_bind, eval.
  destruct (py_get obj (txt "type") (JStr [])) as [msg_type|e]; [|by intros ?%elem_of_nil].
  destruct (py_eq_str msg_type (txt "assistant")); [|by intros ?%elem_of_nil].
  destruct (py_get obj (txt "message") (JObj [])) as [message|e]; [|by intros ?%elem_of_nil].
  destruct (py_get message (txt "content") (JArr [])) as [content|e];
    [|by intros ?%elem_of_nil].
  destruct content as [| | | |blocks|]; try by intros ?%elem_of_nil.
  intros Hin Hkey. simpl.
  apply (for_each_reaches Q assistant_block blocks block); [|done|].
  - intros b st' Hst' _. exact (seen_member_step st' _ Hst' (assistant_block_step b st') (λ H, match Bool.diff_false_true H with end)).
  - intros st'. by apply assistant_block_marks.
Qed.

Lemma process_line_marks line st :
  mentions json_loads line k →
  is_val (process_line json_loads line st).2 →
  Q (process_line json_loads line st).1.
Proof.
  intros (Hne & obj & block & Hobj & Hin & Hkey).
  rewrite process_line_unfold, Hne, Hobj. cbv zeta.
  by apply (process_record_marks obj block).
Qed.

Lemma main_marks lines line :
  line ∈ lines →
  mentions json_loads line k →
  is_val (main json_loads lines).2 →
  Q (main json_loads lines).1.
Proof.
  intros Hin Hm. unfold main, mbind, M_bind.
  pose proof (for_each_reaches Q (process_line json_loads) lines line) as H.
  specialize (H (λ y, keeps_process_line json_loads false Q seen_member_archiving seen_member_step y) Hin).
  specialize (H (λ st, process_line_marks line st Hm) (State [] ∅ [])).
  destruct (for_each _ lines _) as [st [[]|e]]; simpl in *; [|done].
  intros _. by apply H.
Qed.

End Reaching.

(** *** Tool invocations over a whole run *)

Lemma main_seen_inv json_loads lines : seen_inv (main json_loads lines).1.
Proof.
  apply (keeps_run json_loads false seen_inv); try done.
  - intros st ev Hev Hst. apply seen_inv_filing; [by apply archiving_filing|done].
  - intros st r Hst Hstep _. by eapply seen_inv_step.
  - intros st Hst. by apply seen_inv_filing.
  - intros k. unfold announced. simpl. split; [lia|done].
Qed.

Lemma main_seen_announced json_loads lines :
  is_val (main json_loads lines).2 → seen_announced (main json_loads lines).1.
Proof.
  intros Hv.
  apply (keeps_run json_loads true seen_announced); try done.
  - intros st ev Hev Hst. apply seen_announced_filing; [by apply archiving_filing|done].
  - intros st r Hst Hstep Hval. eapply seen_announced_step; eauto.
  - intros st Hst. by apply seen_announced_filing.
  - split; [|by intros k ?%not_elem_of_empty].
    intros k. unfold announced. simpl. split; [lia|done].
Qed.

(** C5. Whatever the lines of the input, no tool invocation is announced
    twice: at most one progress line is printed for an identifier.  And
    when the decoder reaches the end of the input, a tool invocation that
    appears in the assistant message of some line, be it in one line or in
    several, has exactly one progress line. *)
Theorem tool_announced_once json_loads lines k :
  let r := main json_loads lines in
  announced k (trace r.1) ≤ 1 ∧
  (is_val r.2 →
   (∃ line, line ∈ lines ∧ mentions json_loads line k) →
   announced k (trace r.1) = 1).
Proof.
  cbv zeta. split; [apply main_seen_inv|].
  intros Hv (line & Hin & Hm).
  destruct (main_seen_announced json_loads lines Hv) as [_ Hall].
  apply Hall. by apply (main_marks json_loads k lines line).
Qed.

(** *** Containment *)

Lemma join_chunks_app (xs ys : list str) : join (xs ++ ys) = join xs ++ join ys.
Proof. apply concat_app. Qed.

Lemma starts_with_spec p s : starts_with p s = true ↔ ∃ rest, s = p ++ rest.
Proof.
  revert s. induction p as [|a p IH]; intros s; simpl.
  { split; [by exists s|done]. }
  destruct s as [|b s].
  { split; [done|]. by intros [rest H]. }
  rewrite andb_true_iff, IH. split.
  - intros [->%N.eqb_eq [rest ->]]. by exists rest.
  - intros [rest H]. injection H as -> ->.
    split; [apply N.eqb_refl|by exists rest].
Qed.

Lemma contains_nil t : contains t [] = starts_with t [].
Proof. simpl. by rewrite orb_false_r. Qed.

Lemma contains_cons t c s :
  contains t (c :: s) = starts_with t (c :: s) || contains t s.
Proof. reflexivity. Qed.

Lemma contains_spec t s : contains t s = true ↔ occurs_in t s.
Proof.
  unfold occurs_in. induction s as [|c s IH].
  - rewrite contains_nil, starts_with_spec. split.
    + intros [rest H]. by exists [], rest.
    + intros (before & after & H). exists after.
      by destruct before.
  - rewrite contains_cons, orb_true_iff, starts_with_spec, IH. split.
    + intros [[rest H]|(before & after & H)].
      * by exists [], rest.
      * exists (c :: before), after. simpl. by rewrite H.
    + intros (before & after & H). destruct before as [|b before].
      * left. by exists after.
      * right. injection H as -> ->. by exists before, after.
Qed.

Lemma contains_app t s u : contains t s = true → contains t (s ++ u) = true.
Proof.
  rewrite !contains_spec. intros (before & after & ->).
  exists before, (after ++ u). by rewrite <- !app_assoc.
Qed.

Lemma contains_end t s : contains t (s ++ t) = true.
Proof. rewrite contains_spec. exists s, []. by rewrite app_nil_r. Qed.

(** *** Each fragment is printed at most once *)

Lemma text_inv_step st r : text_inv st → block_step st r → text_inv r.1.
Proof.
  intros [Hfull Hinv] Hstep.
  destruct Hstep as [r|k' e Hk'|k' line Hk'|t0 Ht0 Hc]; simpl.
  - done.
  - done.
  - split; simpl.
    + unfold texts. rewrite omap_app. simpl. by rewrite app_nil_r.
    + intros t. rewrite printed_app, printed_one, Nat.add_0_r. apply Hinv.
  - split; simpl.
    + unfold texts. rewrite omap_app. simpl. fold (texts (trace st)).
      rewrite join_chunks_app, <- Hfull. unfold join at 1. simpl.
      by rewrite app_nil_r.
    + intros t. destruct (Hinv t) as [Hle Hin].
      rewrite printed_app, printed_one.
      destruct (decide (t0 = t)) as [->|Hne].
      * assert (printed t (trace st) = 0) as ->.
        { destruct (printed t (trace st)) as [|n]; [done|].
          rewrite Hin in Hc; [done|lia]. }
        rewrite decide_True by done. split; [lia|]. intros _. apply contains_end.
      * rewrite decide_False by done. rewrite Nat.add_0_r.
        split; [done|]. intros H. by apply contains_app, Hin.
Qed.

Lemma text_inv_filing st ev :
  is_filing ev = true → text_inv st →
  text_inv (State (full_text st) (seen_tools st) (trace st ++ [ev])).
Proof.
  intros Hev [Hfull Hinv]. split; simpl.
  - by rewrite (texts_filing _ ev Hev).
  - intros t. rewrite (printed_filing t _ ev Hev). apply Hinv.
Qed.

Lemma main_text_inv json_loads lines : text_inv (main json_loads lines).1.
Proof.
  apply (keeps_run json_loads false text_inv); try done.
  - intros st ev Hev Hst. apply text_inv_filing; [by apply archiving_filing|done].
  - intros st r Hst Hstep _. by eapply text_inv_step.
  - intros st Hst. by apply text_inv_filing.
  - split; [done|]. intros t. unfold printed. simpl. split; lia.
Qed.

(** *** The trace is only appended to *)

Lemma framed_ret {A} (a : A) : framed (mret a).
Proof. by intros st tr. Qed.

Lemma framed_eval {A} (r : res A) : framed (eval r).
Proof. by intros st tr. Qed.

Lemma framed_emit ev : framed (emit ev).
Proof. intros st tr. unfold emit. simpl. by rewrite app_assoc. Qed.

Lemma framed_bind {A B} (m : M A) (k : A → M B) :
  framed m → (∀ a, framed (k a)) → framed (m ≫= k).
Proof.
  intros Hm Hk st tr. unfold mbind, M_bind. rewrite Hm.
  destruct (m st) as [st' [a|e]]; simpl; [apply Hk|done].
Qed.

Lemma framed_for_each {A} (body : A → M unit) xs :
  (∀ x, framed (body x)) → framed (for_each body xs).
Proof.
  intros Hb. induction xs as [|x xs IH]; simpl; [apply framed_ret|].
  apply framed_bind; [apply Hb|]. by intros _.
Qed.

Lemma framed_for_content body content :
  (∀ x, framed (body x)) → framed (for_content body content).
Proof.
  intros Hb. destruct content; simpl; try apply framed_ret.
  by apply framed_for_each.
Qed.

Lemma framed_emit_text text : framed (emit_text text).
Proof.
  unfold emit_text. destruct (truthy text); [|apply framed_ret].
  destruct text as [| | |t| |]; try apply framed_eval.
  apply framed_bind; [by intros st tr|]. intros seen.
  destruct (contains t seen); [apply framed_ret|].
  apply framed_bind; [apply framed_emit|]. intros _. by intros st tr.
Qed.

Lemma framed_result_block block : framed (result_block block).
Proof.
  unfold result_block. apply framed_bind; [apply framed_eval|]. intros kind.
  destruct (py_eq_str kind (txt "text")); [|apply framed_ret].
  apply framed_bind; [apply framed_eval|]. intros text. apply framed_emit_text.
Qed.

Lemma framed_assistant_block block : framed (assistant_block block).
Proof.
  unfold assistant_block. apply framed_bind; [apply framed_eval|]. intros kind.
  destruct (py_eq_str kind (txt "tool_use")).
  - apply framed_bind; [apply framed_eval|]. intros tool_name.
    apply framed_bind; [apply framed_eval|]. intros tool_id.
    apply framed_bind; [apply framed_eval|]. intros k.
    apply framed_bind; [by intros st tr|]. intros seen.
    destruct (decide (k ∈ seen)); [apply framed_ret|].
    apply framed_bind; [by intros st tr|]. intros _.
    apply framed_bind; [apply framed_eval|]. intros inp.
    apply framed_bind; [apply framed_eval|]. intros detail.
    apply framed_emit.
  - destruct (py_eq_str kind (txt "text")); [|apply framed_ret].
    apply framed_bind; [apply framed_eval|]. intros text. apply framed_emit_text.
Qed.

Lemma framed_render_result result : framed (render_result result).
Proof.
  unfold render_result. destruct result; try apply framed_ret.
  apply framed_bind; [apply framed_eval|]. intros content.
  apply framed_for_content, framed_result_block.
Qed.

Lemma framed_process_record obj : framed (process_record obj).
Proof.
  unfold process_record. apply framed_bind; [apply framed_eval|]. intros msg_type.
  destruct (py_eq_str msg_type (txt "assistant")).
  { apply framed_bind; [apply framed_eval|]. intros message.
    apply framed_bind; [apply framed_eval|]. intros content.
    apply framed_for_content, framed_assistant_block. }
  destruct (py_eq_str msg_type (txt "result")); [|apply framed_ret].
  apply framed_bind; [apply framed_eval|]. intros fallback.
  apply framed_bind; [apply framed_eval|]. intros result.
  apply framed_render_result.
Qed.

Lemma framed_except (m : M unit) : framed m → framed (except_decode_error m).
Proof.
  intros Hm st tr. unfold except_decode_error. rewrite Hm.
  destruct (m st) as [st' [[]|e]]; [done|]. by destruct e.
Qed.

Lemma framed_process_line json_loads line : framed (process_line json_loads line).
Proof.
  unfold process_line.
  apply framed_bind; [apply framed_emit|]. intros _.
  apply framed_bind; [apply framed_emit|]. intros _.
  destruct (str_truthy (strip line)); [|apply framed_ret].
  apply framed_except, framed_bind; [apply framed_eval|]. intros obj.
  apply framed_process_record.
Qed.

Lemma framed_save_narrative : framed save_narrative.
Proof.
  unfold save_narrative. apply framed_bind; [by intros st tr|]. intros text.
  apply framed_emit.
Qed.

Lemma for_each_app {A} (body : A → M unit) xs ys st :
  for_each body (xs ++ ys) st = (for_each body xs;; for_each body ys) st.
Proof.
  revert st. induction xs as [|x xs IH]; intros st; simpl; [done|].
  unfold mbind, M_bind in *. destruct (body x st) as [st' [[]|e]]; [|done].
  apply IH.
Qed.

Lemma framed_from_empty {A} (m : M A) f s tr :
  framed m →
  m (State f s tr) =
  (State (full_text (m (State f s [])).1) (seen_tools (m (State f s [])).1)
         (tr ++ trace (m (State f s [])).1),
   (m (State f s [])).2).
Proof.
  intros Hm. specialize (Hm (State f s []) tr). simpl in Hm.
  by rewrite app_nil_r in Hm.
Qed.

(** *** The record archive *)

Lemma archive_rendering evs : forallb is_rendering evs = true → archive evs = [].
Proof.
  induction evs as [|ev evs IH]; simpl; [done|].
  intros [Hev Hevs]%andb_prop. unfold archive in *. simpl.
  rewrite (IH Hevs). by destruct ev.
Qed.

Lemma archive_app tr1 tr2 : archive (tr1 ++ tr2) = archive tr1 ++ archive tr2.
Proof. apply omap_app. Qed.

Section Archive.

Variable json_loads : str → res json.

Lemma process_line_skips line st :
  json_loads (strip line) = Exc JSONDecodeError →
  process_line json_loads line st =
  (State (full_text st) (seen_tools st)
         (trace st ++ [EvArchive line; EvArchiveFlush]), Val ()).
Proof.
  intros Hnone. unfold process_line, mbind, M_bind, emit. simpl.
  rewrite Hnone, <- app_assoc. by destruct (str_truthy (strip line)).
Qed.

Lemma process_line_archives_first line st :
  ∃ evs,
    trace (process_line json_loads line st).1 =
      trace st ++ EvArchive line :: EvArchiveFlush :: evs ∧
    forallb is_rendering evs = true.
Proof.
  set (tr0 := trace st ++ [EvArchive line; EvArchiveFlush]).
  set (I := λ st' : state,
         ∃ evs, trace st' = tr0 ++ evs ∧ forallb is_rendering evs = true).
  assert (∀ m : M (), keeps false I m →
          I (m (State (full_text st) (seen_tools st) tr0)).1) as Hrun.
  { intros m Hm. apply Hm; [|done]. exists []. by rewrite app_nil_r. }
  assert (I (process_line json_loads line st).1) as (evs & Htr & Hevs).
  { assert (I (State (full_text st) (seen_tools st) tr0)) as H0.
    { exists []. by rewrite app_nil_r. }
    rewrite process_line_unfold. cbv zeta. fold tr0.
    destruct (str_truthy (strip line)); [|exact H0].
    destruct (json_loads (strip line)) as [obj|e]; [|by destruct e].
    apply Hrun, keeps_process_record.
    intros st1 r (evs & Htr & Hevs) Hstep _.
    destruct Hstep as [r|k e Hk|k l Hk|t Ht Hc]; simpl.
    - by exists evs.
    - by exists evs.
    - exists (evs ++ [EvProgress k l]). rewrite Htr, <- app_assoc.
      split; [done|]. by rewrite forallb_app, Hevs.
    - exists (evs ++ [EvText t]). rewrite Htr, <- app_assoc.
      split; [done|]. by rewrite forallb_app, Hevs. }
  exists evs. split; [|done]. rewrite Htr. unfold tr0.
  by rewrite <- app_assoc.
Qed.

Lemma process_line_archive line st :
  archive (trace (process_line json_loads line st).1) =
  archive (trace st) ++ [line].
Proof.
  destruct (process_line_archives_first line st) as (evs & -> & Hevs).
  rewrite archive_app.
  change (archive (EvArchive line :: EvArchiveFlush :: evs))
    with (line :: archive evs).
  by rewrite (archive_rendering evs Hevs).
Qed.

Lemma for_each_archive lines st :
  is_val (for_each (process_line json_loads) lines st).2 →
  archive (trace (for_each (process_line json_loads) lines st).1) =
  archive (trace st) ++ lines.
Proof.
  revert st. induction lines as [|line lines IH]; intros st; simpl.
  { by rewrite app_nil_r. }
  unfold mbind, M_bind.
  pose proof (process_line_archive line st) as Hline.
  destruct (process_line json_loads line st) as [st' [[]|e]]; simpl in *; [|done].
  intros Hv. rewrite (IH st' Hv), Hline, <- app_assoc. done.
Qed.

Lemma for_each_archive_prefix lines st :
  ∃ rest,
    archive (trace st) ++ lines =
    archive (trace (for_each (process_line json_loads) lines st).1) ++ rest.
Proof.
  revert st. induction lines as [|line lines IH]; intros st; simpl.
  { by exists []. }
  unfold mbind, M_bind.
  pose proof (process_line_archive line st) as Hline.
  destruct (process_line json_loads line st) as [st' [[]|e]]; simpl in *.
  - destruct (IH st') as [rest Hrest]. exists rest.
    by rewrite <- Hrest, Hline, <- app_assoc.
  - exists lines. by rewrite Hline, <- app_assoc.
Qed.

Lemma main_archive_prefix lines :
  archive (trace (main json_loads lines).1) `prefix_of` lines.
Proof.
  unfold main, mbind, M_bind.
  destruct (for_each_archive_prefix lines (State [] ∅ [])) as [rest Hrest].
  exists rest. simpl in Hrest.
  destruct (for_each _ lines _) as [st [[]|e]]; simpl in *; [|done].
  rewrite archive_app.
  change (archive [EvNarrative (full_text st)]) with (@nil str).
  by rewrite app_nil_r.
Qed.

Lemma main_archive lines :
  is_val (main json_loads lines).2 →
  archive (trace (main json_loads lines).1) = lines.
Proof.
  unfold main, mbind, M_bind.
  pose proof (for_each_archive lines (State [] ∅ [])) as H.
  destruct (for_each _ lines _) as [st [[]|e]]; simpl in *; [|done].
  intros _. rewrite archive_app.
  change (archive [EvNarrative (full_text st)]) with (@nil str).
  rewrite app_nil_r. by apply H.
Qed.

Lemma main_split before after :
  main json_loads (before ++ after) =
  match for_each (process_line json_loads) before (State [] ∅ []) with
  | (st, Val _) =>
      (for_each (process_line json_loads) after;; save_narrative) st
  | (st, Exc e) => (st, Exc e)
  end.
Proof.
  unfold main, mbind, M_bind. rewrite for_each_app. unfold mbind, M_bind.
  by destruct (for_each _ before _) as [st [[]|e]].
Qed.

Lemma run_cons line after st :
  (for_each (process_line json_loads) (line :: after);; save_narrative) st =
  match process_line json_loads line st with
  | (st', Val _) =>
      (for_each (process_line json_loads) after;; save_narrative) st'
  | (st', Exc e) => (st', Exc e)
  end.
Proof.
  simpl. unfold mbind, M_bind.
  by destruct (process_line json_loads line st) as [st' [[]|e]].
Qed.

Lemma framed_run lines :
  framed (for_each (process_line json_loads) lines;; save_narrative).
Proof.
  apply framed_bind; [|intros _; apply framed_save_narrative].
  apply framed_for_each. intros line. apply framed_process_line.
Qed.

(** A projection of the trace that does not see the archive. *)
Lemma omap_skip {B} (f : event → option B) line tr evs :
  f (EvArchive line) = None → f EvArchiveFlush = None →
  omap f ((tr ++ [EvArchive line; EvArchiveFlush]) ++ evs) = omap f (tr ++ evs).
Proof.
  intros H1 H2. rewrite !omap_app. simpl. rewrite H1, H2. simpl.
  by rewrite app_nil_r.
Qed.

(** A line that is not JSON changes nothing but the archive. *)
Lemma main_skip_line before line after :
  json_loads (strip line) = Exc JSONDecodeError →
  let r := main json_loads (before ++ line :: after) in
  let r' := main json_loads (before ++ after) in
  r.2 = r'.2 ∧
  full_text r.1 = full_text r'.1 ∧
  seen_tools r.1 = seen_tools r'.1 ∧
  progress (trace r.1) = progress (trace r'.1) ∧
  texts (trace r.1) = texts (trace r'.1) ∧
  stdout (trace r.1) = stdout (trace r'.1) ∧
  narrative (trace r.1) = narrative (trace r'.1).
Proof.
  intros Hnone. cbv zeta. rewrite !main_split.
  destruct (for_each _ before _) as [[f s tr] [[]|e]]; [|done].
  rewrite run_cons, (process_line_skips line _ Hnone). simpl.
  rewrite (framed_from_empty _ f s (tr ++ _) (framed_run after)).
  rewrite (framed_from_empty _ f s tr (framed_run after)). simpl.
  unfold progress, texts, stdout, narrative.
  by rewrite !omap_skip.
Qed.

End Archive.

(** *** The narrative file *)

Lemma narrative_written tr t : narrative (tr ++ [EvNarrative t]) = Some t.
Proof. unfold narrative. rewrite omap_app. simpl. by rewrite last_snoc. Qed.

Lemma main_narrative json_loads lines :
  let r := main json_loads lines in
  narrative (trace r.1) =
    match r.2 with
    | Val _ => Some (full_text r.1)
    | Exc _ => None
    end.
Proof.
  cbv zeta. unfold main, mbind, M_bind.
  set (I := λ st : state, narrative (trace st) = None).
  assert (I (for_each (process_line json_loads) lines (State [] ∅ [])).1) as H.
  { apply (keeps_for_each false I); [|done|done].
    intros line. apply keeps_process_line.
    - intros st ev Hev Hst. unfold I, narrative in *. simpl. rewrite omap_app.
      destruct ev; try done; simpl; by rewrite app_nil_r.
    - intros st r Hst Hstep _. unfold I, narrative in *.
      destruct Hstep; simpl; try done; rewrite omap_app; simpl;
        by rewrite app_nil_r. }
  destruct (for_each _ lines _) as [st [[]|e]]; simpl in *; [|done].
  apply narrative_written.
Qed.

(** *** Text fragments, and lines that are not JSON *)

Lemma emit_text_rule t st :
  emit_text (JStr t) st =
    if str_truthy t && negb (contains t (full_text st))
    then (State (full_text st ++ t) (seen_tools st) (trace st ++ [EvText t]),
          Val ())
    else (st, Val ()).
Proof.
  unfold emit_text. simpl. destruct (str_truthy t); [|done].
  unfold mbind, M_bind, get_full_text.
  by destruct (contains t (full_text st)).
Qed.

Lemma text_block_rule block t st :
  py_get block (txt "type") JNull = Val (JStr (txt "text")) →
  py_get block (txt "text") (JStr []) = Val (JStr t) →
  assistant_block block st = emit_text (JStr t) st.
Proof.
  intros Hkind Htext. unfold assistant_block, mbind, M_bind, eval.
  by rewrite Hkind, Htext.
Qed.

Lemma process_text_message t st :
  process_record (text_message t) st = emit_text (JStr t) st.
Proof.
  unfold process_record, text_message, mbind, M_bind, eval. simpl.
  unfold mbind, M_bind.
  rewrite (text_block_rule _ t st) by done.
  by destruct (emit_text (JStr t) st) as [st' [[]|e]].
Qed.

Lemma process_line_text json_loads line t st :
  str_truthy (strip line) = true →
  json_loads (strip line) = Val (text_message t) →
  process_line json_loads line st =
  emit_text (JStr t)
    (State (full_text st) (seen_tools st)
           (trace st ++ [EvArchive line; EvArchiveFlush])).
Proof.
  intros Hne Hobj. rewrite process_line_unfold, Hne, Hobj. cbv zeta.
  apply process_text_message.
Qed.



(** *** The detail of a progress line *)

Lemma str_take_first n s : first_chars n s (str_take n s).
Proof.
  unfold first_chars, str_take. split.
  - exists (drop n s). by rewrite take_drop.
  - by rewrite length_take.
Qed.

Lemma str_eqb_spec a b : str_eqb a b = true ↔ a = b.
Proof.
  revert b. induction a as [|x a IH]; intros [|y b]; simpl; try done.
  rewrite andb_true_iff, N.eqb_eq, IH. split; [by intros [-> ->]|].
  by intros [= -> ->].
Qed.

Lemma str_eqb_ne a b : a ≠ b → str_eqb a b = false.
Proof.
  intros Hne. destruct (str_eqb a b) eqn:E; [|done].
  by apply str_eqb_spec in E.
Qed.

(** The comparisons of a name with the literals of the source, when the
    name is a literal too. *)
Ltac eval_literals :=
  repeat (match goal with
          | |- context [py_eq_str (JStr (txt ?a)) (txt ?b)] =>
              let v := eval vm_compute in (py_eq_str (JStr (txt a)) (txt b)) in
              change (py_eq_str (JStr (txt a)) (txt b)) with v
          | |- context [str_eqb (txt ?a) (txt ?b)] =>
              let v := eval vm_compute in (str_eqb (txt a) (txt b)) in
              change (str_eqb (txt a) (txt b)) with v
          end; cbv iota).

Lemma py_get_obj fields key default :
  py_get (JObj fields) key default =
    Val (match dict_get key fields with Some x => x | None => default end).
Proof. simpl. by destruct (dict_get key fields). Qed.

Lemma py_eq_str_ne name lit : name ≠ lit → py_eq_str (JStr name) lit = false.
Proof. intros H. simpl. by apply str_eqb_ne. Qed.

(** C8. The detail of a progress line depends on the name of the tool.
    With [arg name] the argument of that name, and the empty text when
    there is none: for [Read] it is [arg file_path]; for [Grep], the
    pattern, quoted as [repr] does, and the path; for [Glob],
    [arg pattern]; for [Bash], the first 80 characters of the command;
    for [Task], [arg description]; for any other name, the description
    if there is one, else the first 60 characters of [str] of the
    arguments.  Characters are counted, not bytes.  A [Grep] of [foo] in
    [/src] is announced with the detail [pattern='foo' in /src]. *)
Theorem tool_detail_by_name (inp : list (str * json)) :
  let arg := λ name, default (JStr []) (dict_get name inp) in
  tool_detail (JStr (txt "Read")) (JObj inp) = Val (arg (txt "file_path")) ∧
  (∀ pattern path,
     dict_get (txt "pattern") inp = Some (JStr pattern) →
     dict_get (txt "path") inp = Some (JStr path) →
     tool_detail (JStr (txt "Grep")) (JObj inp) =
       Val (JStr (txt "pattern=" ++ repr_str pattern ++ txt " in " ++ path))) ∧
  tool_detail (JStr (txt "Glob")) (JObj inp) = Val (arg (txt "pattern")) ∧
  (∀ command,
     dict_get (txt "command") inp = Some (JStr command) →
     ∃ d, tool_detail (JStr (txt "Bash")) (JObj inp) = Val (JStr d) ∧
          first_chars 80 command d) ∧
  tool_detail (JStr (txt "Task")) (JObj inp) = Val (arg (txt "description")) ∧
  (∀ name,
     name ∉ [(txt "Read"); (txt "Grep"); (txt "Glob"); (txt "Bash"); (txt "Task")] →
     match dict_get (txt "description") inp with
     | Some description => tool_detail (JStr name) (JObj inp) = Val description
     | None =>
         ∃ d, tool_detail (JStr name) (JObj inp) = Val (JStr d) ∧
              first_chars 60 (py_str (JObj inp)) d
     end) ∧
  trace (assistant_block grep_block (State [] ∅ [])).1 =
    [EvProgress (KStr (txt "t1")) (txt "  " ++ [128295%N] ++ txt " Grep: pattern='foo' in /src")] ∧
  contains (txt "pattern='foo'") (txt "  " ++ [128295%N] ++ txt " Grep: pattern='foo' in /src") = true ∧
  contains (txt "/src") (txt "  " ++ [128295%N] ++ txt " Grep: pattern='foo' in /src") = true.
Proof.
  cbv zeta. unfold tool_detail.
  repeat match goal with |- _ ∧ _ => split end.
  - eval_literals. by rewrite py_get_obj.
  - intros pattern path Hpattern Hpath.
    eval_literals.
    by rewrite !py_get_obj, Hpattern, Hpath.
  - eval_literals. by rewrite py_get_obj.
  - intros command Hcommand.
    eval_literals.
    rewrite py_get_obj, Hcommand. exists (str_take 80 command).
    split; [done|apply str_take_first].
  - eval_literals. by rewrite py_get_obj.
  - intros name Hname.
    repeat (apply not_elem_of_cons in Hname as [? Hname]).
    rewrite !py_eq_str_ne by done. rewrite py_get_obj.
    destruct (dict_get (txt "description") inp) as [description|]; [done|].
    exists (str_take 60 (py_str (JObj inp))). split; [done|apply str_take_first].
  - by vm_compute.
  - by vm_compute.
  - by vm_compute.
Qed.

(** *** The payload of a final result *)

Lemma result_block_as_assistant block st :
  is_tool_use block = false → result_block block st = assistant_block block st.
Proof.
  unfold is_tool_use, result_block, assistant_block, mbind, M_bind, eval.
  destruct (py_get block (txt "type") JNull) as [kind|e]; [|done]. by intros ->.
Qed.

Lemma result_blocks_as_assistant blocks st :
  Forall (λ block, is_tool_use block = false) blocks →
  for_each result_block blocks st = for_each assistant_block blocks st.
Proof.
  intros Hall. revert st.
  induction Hall as [|block blocks Hblock Hall IH]; intros st; simpl; [done|].
  unfold mbind, M_bind. rewrite (result_block_as_assistant block st Hblock).
  destruct (assistant_block block st) as [st' [[]|e]]; [apply IH|done].
Qed.

Lemma result_record_payload fields st :
  dict_get (txt "type") fields = Some (JStr (txt "result")) →
  process_record (JObj fields) st =
    render_result (completion_payload fields) st.
Proof.
  intros Hkind.
  unfold process_record, completion_payload, mbind, M_bind, eval.
  rewrite !py_get_obj, Hkind.
  by eval_literals.
Qed.

(** C9. For a record of kind [result], the payload is the [result] field
    when the record has one, whatever its [message] field, and the
    [message] field only when it has none.  What is then done with the
    text fragments of the payload is what is done with those of an
    assistant message: on a payload without tool invocation, the two
    kinds of record do the same. *)
Theorem result_payload_rule :
  (∀ fields st,
     dict_get (txt "type") fields = Some (JStr (txt "result")) →
     process_record (JObj fields) st =
       render_result (completion_payload fields) st) ∧
  (∀ fields result st,
     dict_get (txt "type") fields = Some (JStr (txt "result")) →
     dict_get (txt "result") fields = Some result →
     process_record (JObj fields) st = render_result result st) ∧
  (∀ block st,
     is_tool_use block = false →
     result_block block st = assistant_block block st) ∧
  (∀ payload st,
     (∀ blocks, dict_get (txt "content") payload = Some (JArr blocks) →
                Forall (λ block, is_tool_use block = false) blocks) →
     render_result (JObj payload) st =
       process_record
         (JObj [(txt "type", JStr (txt "assistant")); (txt "message", JObj payload)]) st).
Proof.
  assert (∀ fields st,
     dict_get (txt "type") fields = Some (JStr (txt "result")) →
     process_record (JObj fields) st =
       render_result (completion_payload fields) st) as Hpayload.
  { intros fields st Hkind.
    unfold process_record, completion_payload, mbind, M_bind, eval.
    rewrite !py_get_obj, Hkind.
    by eval_literals. }
  split; [done|]. split; [|split].
  - intros fields result st Hkind Hresult.
    rewrite (Hpayload fields st Hkind). unfold completion_payload.
    by rewrite Hresult.
  - apply result_block_as_assistant.
  - intros payload st Hblocks.
    unfold render_result, process_record, mbind, M_bind, eval.
    rewrite !py_get_obj.
    cbn [dict_get]. eval_literals.
    rewrite !py_get_obj.
    destruct (dict_get (txt "content") payload) as [content|] eqn:Hcontent; [|done].
    destruct content as [| | | |blocks|]; try done.
    apply result_blocks_as_assistant. by apply Hblocks.
Qed.

(** *** Records the decoder does not render *)

Lemma py_eq_str_other v lit : v ≠ JStr lit → py_eq_str v lit = false.
Proof.
  intros Hv. destruct v as [| | |s| |]; try done. simpl.
  apply str_eqb_ne. by intros ->.
Qed.

(** A record whose kind is neither [assistant] nor [result], or that has
    no kind at all, changes nothing and prints nothing. *)
Theorem other_kinds_do_nothing fields st :
  (∀ kind, dict_get (txt "type") fields = Some kind →
           kind ≠ JStr (txt "assistant") ∧ kind ≠ JStr (txt "result")) →
  process_record (JObj fields) st = (st, Val ()).
Proof.
  intros Hkind. unfold process_record, mbind, M_bind, eval.
  rewrite py_get_obj. destruct (dict_get (txt "type") fields) as [kind|]; [|done].
  destruct (Hkind kind eq_refl) as [Ha Hr].
  by rewrite (py_eq_str_other _ _ Ha), (py_eq_str_other _ _ Hr).
Qed.

(** *** A final result announces no tool *)

Lemma emit_text_quiet text st :
  seen_tools (emit_text text st).1 = seen_tools st ∧
  progress (trace (emit_text text st).1) = progress (trace st).
Proof.
  destruct text as [|b|n|t|items|fields];
    try (unfold emit_text; by destruct (truthy _)).
  rewrite emit_text_rule.
  destruct (str_truthy t && negb (contains t (full_text st))); [|done].
  simpl. split; [done|]. unfold progress. rewrite omap_app. simpl.
  by rewrite app_nil_r.
Qed.

Lemma result_block_quiet block st :
  seen_tools (result_block block st).1 = seen_tools st ∧
  progress (trace (result_block block st).1) = progress (trace st).
Proof.
  unfold result_block, mbind, M_bind, eval.
  destruct (py_get block (txt "type") JNull) as [kind|e]; [|done].
  destruct (py_eq_str kind (txt "text")); [|done].
  destruct (py_get block (txt "text") (JStr [])) as [text|e]; [|done].
  apply emit_text_quiet.
Qed.

(** A final result prints no progress line and leaves [seen_tools] as it
    is, whatever its payload holds: a tool invocation in a final result is
    not announced, and is not remembered either. *)
Theorem result_announces_nothing fields st :
  dict_get (txt "type") fields = Some (JStr (txt "result")) →
  let r := process_record (JObj fields) st in
  seen_tools r.1 = seen_tools st ∧
  progress (trace r.1) = progress (trace st).
Proof.
  intros Hkind. cbv zeta.
  rewrite (result_record_payload fields st Hkind).
  set (I := λ st' : state,
         seen_tools st' = seen_tools st ∧
         progress (trace st') = progress (trace st)).
  assert (keeps false I (render_result (completion_payload fields))) as Hk.
  { unfold render_result. destruct (completion_payload fields); try apply keeps_ret.
    apply keeps_bind; [apply keeps_eval|]. intros content.
    apply keeps_for_content. intros block st' [Hs Hp] _.
    destruct (result_block_quiet block st') as [Hs' Hp']. split; congruence. }
  by apply Hk.
Qed.

(** *** When the detail of a progress line cannot be made *)

Lemma py_eq_str_true v lit : py_eq_str v lit = true → v = JStr lit.
Proof.
  destruct v as [| | |s| |]; try done. simpl. by intros ->%str_eqb_spec.
Qed.

(** With arguments that are a mapping, making the detail raises exactly
    when the tool is [Bash] and the command is neither a text nor a list,
    which the slice at line 55 needs: for a command that is a mapping
    the exception is [KeyError] where a slice can be hashed and
    [TypeError] where it cannot, and for [None], a truth value or a
    number it is [TypeError].  With arguments that are not a mapping,
    making the detail always raises [AttributeError]. *)
Theorem tool_detail_failures :
  (∀ name inp e,
     tool_detail name (JObj inp) = Exc e ↔
     name = JStr (txt "Bash") ∧
     ∃ command,
       dict_get (txt "command") inp = Some command ∧
       (∀ s, command ≠ JStr s) ∧ (∀ items, command ≠ JArr items) ∧
       e = match command with
           | JObj _ => if hashable_slices then KeyError else TypeError
           | _ => TypeError
           end) ∧
  (∀ name v, (∀ fields, v ≠ JObj fields) → tool_detail name v = Exc AttributeError).
Proof.
  split.
  - intros name inp e. split.
    + unfold tool_detail.
      destruct (py_eq_str name (txt "Read")); [by rewrite py_get_obj|].
      destruct (py_eq_str name (txt "Grep")); [by rewrite !py_get_obj|].
      destruct (py_eq_str name (txt "Glob")); [by rewrite py_get_obj|].
      destruct (py_eq_str name (txt "Bash")) eqn:Hbash.
      * apply py_eq_str_true in Hbash as ->. rewrite py_get_obj.
        destruct (dict_get (txt "command") inp) as [command|]; [|done].
        destruct command; try done; simpl; intros [= <-];
          (split; [done|]); eexists; (split; [done|]); by repeat split.
      * destruct (py_eq_str name (txt "Task")); by rewrite py_get_obj.
    + intros (-> & command & Hcommand & Hs & Hitems & ->).
      unfold tool_detail. eval_literals. rewrite py_get_obj, Hcommand.
      destruct command; try done; [by destruct (Hs s)|by destruct (Hitems items)].
  - intros name v Hv. unfold tool_detail.
    assert (∀ key default, py_get v key default = Exc AttributeError) as Hget.
    { intros key default. destruct v; try done. by destruct (Hv fields). }
    repeat match goal with
           | |- context [py_eq_str name ?lit] => destruct (py_eq_str name lit)
           end; by rewrite ?Hget.
Qed.

(** *** A tool invocation without a name and without arguments *)

(** A tool invocation that has no name and no arguments is announced as
    [unknown], with the empty mapping as its detail; one that has no
    identifier goes by the identifier that is the empty text. *)
Theorem bare_tool_defaults fields k st :
  dict_get (txt "type") fields = Some (JStr (txt "tool_use")) →
  dict_get (txt "name") fields = None →
  dict_get (txt "input") fields = None →
  hash_key (default (JStr []) (dict_get (txt "id") fields)) = Val k →
  k ∉ seen_tools st →
  assistant_block (JObj fields) st =
    (State (full_text st) ({[k]} ∪ seen_tools st)
           (trace st ++ [EvProgress k (txt "  " ++ [128295%N] ++ txt " unknown: {}")]), Val ()).
Proof.
  intros Hkind Hname Hinput Hid Hk.
  unfold assistant_block, mbind, M_bind, eval.
  rewrite !py_get_obj, Hkind, Hname, Hinput.
  eval_literals.
  assert (hash_key match dict_get (txt "id") fields with
                   | Some x => x
                   | None => JStr []
                   end = Val k) as -> by (by destruct (dict_get (txt "id") fields)).
  unfold get_seen_tools.
  destruct (decide (k ∈ seen_tools st)); [done|].
  assert (tool_detail (JStr (txt "unknown")) (JObj []) = Val (JStr (txt "{}")))
    as -> by (by vm_compute).
  done.
Qed.

(** *** Lines of white space *)

Lemma lstrip_all_space s : all_space s = true → lstrip s = [].
Proof.
  induction s as [|c s IH]; simpl; [done|].
  intros [Hc Hs]%andb_prop. rewrite Hc. by apply IH.
Qed.

Lemma all_space_lstrip s : all_space (lstrip s) = true → all_space s = true.
Proof.
  induction s as [|c s IH]; simpl; [done|].
  destruct (is_space c) eqn:Hc; simpl; [done|]. by rewrite Hc.
Qed.

Lemma rstrip_empty s : rstrip s = [] → all_space s = true.
Proof.
  induction s as [|c s IH]; simpl; [done|].
  destruct (rstrip s) as [|c' r]; [|done].
  destruct (is_space c); [|done]. intros _. by apply IH.
Qed.

Lemma blank_line_archived_only line :
  (all_space line = true → strip line = []) ∧
  (all_space line = true →
   ∀ json_loads st,
     process_line json_loads line st =
       (State (full_text st) (seen_tools st)
              (trace st ++ [EvArchive line; EvArchiveFlush]), Val ())).
Proof.
  assert (all_space line = true → strip line = []) as Hblank.
  { intros H. unfold strip. by rewrite (lstrip_all_space line H). }
  split; [done|]. intros H json_loads st.
  unfold process_line, mbind, M_bind, emit. simpl.
  by rewrite (Hblank H), <- app_assoc.
Qed.

(** A line is skipped without being parsed exactly when all its
    characters are white space: it is archived, and nothing else is done
    with it, whatever [json.loads] would have made of it. *)
Theorem blank_lines_are_skipped line :
  (str_truthy (strip line) = false ↔ all_space line = true) ∧
  (all_space line = true →
   ∀ json_loads st,
     process_line json_loads line st =
       (State (full_text st) (seen_tools st)
              (trace st ++ [EvArchive line; EvArchiveFlush]), Val ())).
Proof.
  destruct (blank_line_archived_only line) as [Hblank Hskip].
  split; [split|done].
  - unfold strip. intros H. apply all_space_lstrip, rstrip_empty.
    by destruct (rstrip (lstrip line)).
  - intros H. by rewrite (Hblank H).
Qed.

(** *** The narrative file is written at the end, or not at all *)

Lemma narratives_app tr1 tr2 :
  narratives (tr1 ++ tr2) = narratives tr1 ++ narratives tr2.
Proof. apply omap_app. Qed.

Lemma for_each_no_narrative json_loads lines st :
  narratives (trace st) = [] →
  narratives (trace (for_each (process_line json_loads) lines st).1) = [].
Proof.
  set (I := λ st : state, narratives (trace st) = []). intros Hst.
  apply (keeps_for_each false I); [|done|done].
  intros line. apply keeps_process_line.
  - intros st' ev Hev H. unfold I in *. simpl. rewrite narratives_app, H.
    by destruct ev.
  - intros st' r H Hstep _. unfold I in *.
    destruct Hstep; simpl; try done; by rewrite narratives_app, H.
Qed.


(** *** A line that holds a value that is not a mapping *)

Lemma stdout_app tr1 tr2 : stdout (tr1 ++ tr2) = stdout tr1 ++ stdout tr2.
Proof. unfold stdout. by rewrite omap_app, join_chunks_app. Qed.

(** [main] and the loop over the lines, side by side. *)
Lemma main_unfold json_loads lines :
  main json_loads lines =
    match for_each (process_line json_loads) lines (State [] ∅ []) with
    | (st, Val _) =>
        (State (full_text st) (seen_tools st)
               (trace st ++ [EvNarrative (full_text st)]), Val ())
    | (st, Exc e) => (st, Exc e)
    end.
Proof.
  unfold main, mbind, M_bind.
  by destruct (for_each _ lines _) as [st [[]|e]].
Qed.

Lemma process_line_not_mapping json_loads line obj st :
  str_truthy (strip line) = true →
  json_loads (strip line) = Val obj →
  (∀ fields, obj ≠ JObj fields) →
  process_line json_loads line st =
    (State (full_text st) (seen_tools st)
           (trace st ++ [EvArchive line; EvArchiveFlush]), Exc AttributeError).
Proof.
  intros Hne Hobj Hnot. unfold process_line, mbind, M_bind, emit. simpl.
  rewrite Hne, Hobj, <- app_assoc. unfold process_record, mbind, M_bind, eval.
  destruct obj; try done. by destruct (Hnot fields).
Qed.


(** *** A line on which the parser raises something else *)

Lemma process_line_parser_error json_loads line e st :
  str_truthy (strip line) = true →
  json_loads (strip line) = Exc e →
  e ≠ JSONDecodeError →
  process_line json_loads line st =
    (State (full_text st) (seen_tools st)
           (trace st ++ [EvArchive line; EvArchiveFlush]), Exc e).
Proof.
  intros Hne Hobj He. rewrite process_line_unfold, Hne, Hobj. cbv zeta.
  by destruct e.
Qed.


(** *** Input without a record *)

Lemma for_each_junk json_loads lines st :
  Forall (λ line, all_space line = true ∨
                  json_loads (strip line) = Exc JSONDecodeError) lines →
  for_each (process_line json_loads) lines st =
    (State (full_text st) (seen_tools st)
           (trace st ++
            concat (map (λ line, [EvArchive line; EvArchiveFlush]) lines)),
     Val ()).
Proof.
  intros Hall. revert st.
  induction Hall as [|line lines Hline Hall IH]; intros st; simpl.
  { rewrite app_nil_r. by destruct st. }
  unfold mbind, M_bind.
  assert (process_line json_loads line st =
          (State (full_text st) (seen_tools st)
                 (trace st ++ [EvArchive line; EvArchiveFlush]), Val ())) as ->.
  { destruct Hline as [Hblank|Hnone].
    - by apply (proj2 (blank_line_archived_only line) Hblank).
    - by apply process_line_skips. }
  rewrite IH. simpl. by rewrite <- app_assoc.
Qed.


(** *** The output of a longer input extends the output of a shorter one *)

Lemma archiving_silent evs :
  forallb is_archiving evs = true →
  stdout evs = [] ∧ progress evs = [] ∧ texts evs = [].
Proof.
  induction evs as [|ev evs IH]; simpl; [done|].
  intros [Hev Hevs]%andb_prop. destruct (IH Hevs) as (H1 & H2 & H3).
  unfold stdout, progress, texts in *. destruct ev; try done.
Qed.

Lemma run_extends_text json_loads lines st :
  ∃ more,
    full_text
      ((for_each (process_line json_loads) lines;; save_narrative) st).1 =
    full_text st ++ more.
Proof.
  set (I := λ st' : state, ∃ more, full_text st' = full_text st ++ more).
  apply (keeps_run json_loads false I).
  - by intros st' ev _ H.
  - intros st' r [more H] Hstep _. destruct Hstep; simpl; try by exists more.
    exists (more ++ t). by rewrite H, <- app_assoc.
  - by intros st' H.
  - exists []. by rewrite app_nil_r.
  - done.
Qed.

(** The decoder works line by line: what it has printed, archived and kept as
    narrative after some lines is the beginning of what it has printed,
    archived and kept after more lines. *)
Theorem output_is_incremental json_loads before after :
  let r1 := main json_loads before in
  let r := main json_loads (before ++ after) in
  (∃ more, stdout (trace r.1) = stdout (trace r1.1) ++ more) ∧
  (∃ more, full_text r.1 = full_text r1.1 ++ more) ∧
  progress (trace r1.1) `prefix_of` progress (trace r.1) ∧
  archive (trace r1.1) `prefix_of` archive (trace r.1).
Proof.
  cbv zeta. rewrite main_split, (main_unfold json_loads before).
  destruct (for_each _ before _) as [[f s tr] [[]|e]]; simpl.
  2: { split; [exists []; by rewrite app_nil_r|].
       split; [exists []; by rewrite app_nil_r|]. done. }
  destruct (run_extends_text json_loads after (State f s tr)) as [more Hmore].
  rewrite (framed_from_empty _ f s tr (framed_run json_loads after)) in *.
  simpl in *.
  set (evs := trace ((for_each (process_line json_loads) after;; save_narrative)
                       (State f s [])).1) in *.
  split; [|split; [by exists more|split]].
  - exists (stdout evs). rewrite !stdout_app. unfold stdout at 3. simpl.
    by rewrite app_nil_r.
  - exists (progress evs). unfold progress. rewrite !omap_app. simpl.
    by rewrite app_nil_r.
  - exists (archive evs). rewrite !archive_app. simpl.
    change (archive [EvNarrative f]) with (@nil str). by rewrite app_nil_r.
Qed.

(** *** Lines read again *)

Lemma covers_refl st : covers st st.
Proof. by split. Qed.

Lemma covers_trans st1 st2 st3 :
  covers st1 st2 → covers st2 st3 → covers st1 st3.
Proof.
  intros [H1 H2] [H3 H4]. split; [by transitivity (seen_tools st2)|].
  intros t H. by apply H4, H2.
Qed.

Lemma covers_step st r : block_step st r → covers st r.1.
Proof.
  intros []; split; simpl; try done; try apply union_subseteq_r.
  intros u. apply contains_app.
Qed.

Lemma covers_for_each {A} (body : A → M unit) xs st :
  (∀ x st', covers st' (body x st').1) →
  covers st (for_each body xs st).1.
Proof.
  intros Hb.
  apply (keeps_for_each false (covers st) body xs); [|apply covers_refl|done].
  intros x st' Hst' _. eapply covers_trans; [done|apply Hb].
Qed.

Lemma covers_process_line json_loads line st :
  covers st (process_line json_loads line st).1.
Proof.
  apply (keeps_process_line json_loads false (covers st));
    [| |apply covers_refl|done].
  - by intros st' ev _ H.
  - intros st' r H Hstep _. eapply covers_trans; [done|by apply covers_step].
Qed.

Lemma replays_nothing (m : M ()) st' :
  m st' = (st', Val ()) →
  ∃ evs,
    forallb is_archiving evs = true ∧
    m st' = (State (full_text st') (seen_tools st') (trace st' ++ evs), Val ()).
Proof.
  intros H. exists []. split; [done|]. rewrite H. destruct st'. simpl.
  by rewrite app_nil_r.
Qed.

Lemma replays_ret : replays (mret ()).
Proof. intros st st1 st' _ _. by apply replays_nothing. Qed.

Lemma replays_eval {A} (r : res A) (k : A → M ()) :
  (∀ a, replays (k a)) → replays (eval r ≫= k).
Proof.
  intros Hk st st1 st' Hrun Hcov. unfold mbind, M_bind, eval in *.
  destruct r as [a|e]; [|done]. by apply (Hk a st st1 st').
Qed.

Lemma replays_emit_text text : replays (emit_text text).
Proof.
  intros st st1 st' Hrun [_ Hcov]. apply replays_nothing.
  destruct text as [|b|n|t|items|fields];
    try (unfold emit_text in *; by destruct (truthy _)).
  rewrite emit_text_rule in *.
  destruct (str_truthy t); [|done]. simpl in *.
  assert (contains t (full_text st1) = true) as Hc.
  { destruct (contains t (full_text st)) eqn:Hc; simpl in Hrun.
    - by injection Hrun as <-.
    - injection Hrun as <-. apply contains_end. }
  by rewrite (Hcov t Hc).
Qed.

Lemma replays_result_block block : replays (result_block block).
Proof.
  unfold result_block. apply replays_eval. intros kind.
  destruct (py_eq_str kind (txt "text")); [|apply replays_ret].
  apply replays_eval. intros text. apply replays_emit_text.
Qed.

Lemma replays_assistant_block block : replays (assistant_block block).
Proof.
  unfold assistant_block. apply replays_eval. intros kind.
  destruct (py_eq_str kind (txt "tool_use")).
  - apply replays_eval. intros tool_name.
    apply replays_eval. intros tool_id.
    apply replays_eval. intros k.
    intros st st1 st' Hrun [Hseen _]. apply replays_nothing.
    unfold mbind, M_bind, get_seen_tools in *.
    assert (k ∈ seen_tools st1) as Hk.
    { destruct (decide (k ∈ seen_tools st)) as [Hin|Hin].
      - by injection Hrun as <-.
      - unfold add_seen, eval, emit in Hrun.
        destruct (py_get block (txt "input") _) as [inp|e]; [|done].
        destruct (tool_detail tool_name inp) as [detail|e]; [|done].
        simpl in Hrun. injection Hrun as <-. simpl.
        apply elem_of_union_l. by apply elem_of_singleton. }
    destruct (decide (k ∈ seen_tools st')) as [|Hn]; [done|].
    destruct Hn. by apply (proj1 (elem_of_subseteq _ _) Hseen).
  - destruct (py_eq_str kind (txt "text")); [|apply replays_ret].
    apply replays_eval. intros text. apply replays_emit_text.
Qed.

Lemma replays_for_each {A} (body : A → M ()) xs :
  (∀ x, replays (body x)) →
  (∀ x st, covers st (body x st).1) →
  replays (for_each body xs).
Proof.
  intros Hb Hm. induction xs as [|x xs IH]; [apply replays_ret|].
  intros st st1 st' Hrun Hcov. simpl in *. unfold mbind, M_bind in *.
  destruct (body x st) as [sta [[]|e]] eqn:Hx; [|done].
  assert (covers sta st1) as Hgrow.
  { pose proof (covers_for_each body xs sta Hm) as H. by rewrite Hrun in H. }
  destruct (Hb x st sta st' Hx (covers_trans _ _ _ Hgrow Hcov))
    as (evs1 & Hevs1 & ->).
  destruct (IH sta st1
              (State (full_text st') (seen_tools st') (trace st' ++ evs1)) Hrun)
    as (evs2 & Hevs2 & ->); [by destruct Hcov|].
  exists (evs1 ++ evs2). split; [by rewrite forallb_app, Hevs1, Hevs2|].
  simpl. by rewrite app_assoc.
Qed.

Lemma replays_process_record obj : replays (process_record obj).
Proof.
  unfold process_record. apply replays_eval. intros msg_type.
  destruct (py_eq_str msg_type (txt "assistant")).
  { apply replays_eval. intros message. apply replays_eval. intros content.
    destruct content; simpl; try apply replays_ret.
    apply replays_for_each; [apply replays_assistant_block|].
    intros b st. apply covers_step, assistant_block_step. }
  destruct (py_eq_str msg_type (txt "result")); [|apply replays_ret].
  apply replays_eval. intros fallback. apply replays_eval. intros result.
  unfold render_result. destruct result; try apply replays_ret.
  apply replays_eval. intros content.
  destruct content; simpl; try apply replays_ret.
  apply replays_for_each; [apply replays_result_block|].
  intros b st. apply covers_step, result_block_step.
Qed.

Lemma replays_process_line json_loads line :
  replays (process_line json_loads line).
Proof.
  intros st st1 st' Hrun Hcov. rewrite process_line_unfold in Hrun |- *.
  cbv zeta in *.
  assert (∃ evs, forallb is_archiving evs = true ∧
    (State (full_text st') (seen_tools st')
           (trace st' ++ [EvArchive line; EvArchiveFlush]), Val ()) =
    (State (full_text st') (seen_tools st') (trace st' ++ evs), @Val unit ()))
    as Hskip by (by exists [EvArchive line; EvArchiveFlush]).
  destruct (str_truthy (strip line)); [|done].
  destruct (json_loads (strip line)) as [obj|e]; [|by destruct e].
  destruct (replays_process_record obj _ st1
              (State (full_text st') (seen_tools st')
                     (trace st' ++ [EvArchive line; EvArchiveFlush])) Hrun)
    as (evs & Hevs & ->); [by destruct Hcov|].
  exists ([EvArchive line; EvArchiveFlush] ++ evs). split; [done|].
  simpl. by rewrite <- app_assoc.
Qed.

(** A line of a run that did not raise was processed from some state, and
    the state at the end covers the state after that line. *)
Lemma for_each_visits json_loads lines l :
  ∀ st0 st_f,
    for_each (process_line json_loads) lines st0 = (st_f, Val ()) →
    l ∈ lines →
    ∃ st st1,
      process_line json_loads l st = (st1, Val ()) ∧ covers st1 st_f.
Proof.
  induction lines as [|y lines IH]; intros st0 st_f Hrun Hin;
    [by inversion Hin|].
  simpl in Hrun. unfold mbind, M_bind in Hrun.
  destruct (process_line json_loads y st0) as [sta [[]|e]] eqn:Hy; [|done].
  apply elem_of_cons in Hin as [->|Hin]; [|by apply (IH sta)].
  exists st0, sta. split; [done|].
  pose proof (covers_for_each (process_line json_loads) lines sta
                (covers_process_line json_loads)) as H.
  by rewrite Hrun in H.
Qed.

Lemma replay_lines json_loads again :
  ∀ st',
    (∀ l, l ∈ again →
          ∃ st st1,
            process_line json_loads l st = (st1, Val ()) ∧ covers st1 st') →
    ∃ evs,
      forallb is_archiving evs = true ∧
      for_each (process_line json_loads) again st' =
      (State (full_text st') (seen_tools st') (trace st' ++ evs), Val ()).
Proof.
  induction again as [|l again IH]; intros st' Hall.
  { by apply replays_nothing. }
  destruct (Hall l) as (st & st1 & Hrun & Hcov); [apply list_elem_of_here|].
  destruct (replays_process_line json_loads l st st1 st' Hrun Hcov)
    as (evs1 & Hevs1 & H1).
  destruct (IH (State (full_text st') (seen_tools st') (trace st' ++ evs1)))
    as (evs2 & Hevs2 & H2).
  { intros l' Hl'. destruct (Hall l') as (sta & stb & Ha & Hb);
      [by apply list_elem_of_further|].
    exists sta, stb. split; [done|]. by destruct Hb. }
  exists (evs1 ++ evs2). split; [by rewrite forallb_app, Hevs1, Hevs2|].
  simpl. unfold mbind, M_bind. rewrite H1, H2. simpl. by rewrite app_assoc.
Qed.

(** Reading again lines that were read before renders nothing: when a run
    over [lines] reaches its end, a run over [lines] followed by any of
    these lines, in any order and any number of times, reaches its end
    too, with the same narrative, the same tool invocations seen and the
    same standard output; the lines read again are in the archive. *)
Theorem replay_renders_nothing json_loads lines again :
  is_val (main json_loads lines).2 →
  (∀ l, l ∈ again → l ∈ lines) →
  let r := main json_loads lines in
  let r' := main json_loads (lines ++ again) in
  r'.2 = Val () ∧
  full_text r'.1 = full_text r.1 ∧
  seen_tools r'.1 = seen_tools r.1 ∧
  stdout (trace r'.1) = stdout (trace r.1) ∧
  progress (trace r'.1) = progress (trace r.1) ∧
  archive (trace r'.1) = lines ++ again.
Proof.
  intros Hv Hsub. cbv zeta.
  assert ((main json_loads (lines ++ again)).2 = Val () →
          archive (trace (main json_loads (lines ++ again)).1) = lines ++ again)
    as Harch.
  { intros H. apply main_archive. by rewrite H. }
  revert Harch. rewrite main_split. revert Hv.
  rewrite (main_unfold json_loads lines).
  destruct (for_each _ lines _) as [st_f [[]|e]] eqn:Hrun; [|done].
  intros _. simpl.
  destruct (replay_lines json_loads again st_f) as (evs & Hevs & H).
  { intros l Hl. by apply (for_each_visits json_loads lines l _ _ Hrun), Hsub. }
  unfold mbind, M_bind. rewrite H.
  unfold save_narrative, mbind, M_bind, get_full_text, emit. simpl.
  destruct (archiving_silent evs Hevs) as (Hout & Hprog & _).
  intros Harch. split; [done|]. split; [done|]. split; [done|].
  split; [|split; [|by apply Harch]].
  - rewrite <- app_assoc, !stdout_app, Hout. reflexivity.
  - unfold progress in *. rewrite <- app_assoc, !omap_app, Hprog. reflexivity.
Qed.

(** *** The files *)


End WithInterpreter.

#[local] Existing Instance sample_interpreter.

(** *** Concrete runs *)

Example run_sample :
  main sample_loads [txt "first" ++ nl; nl; txt "not json" ++ nl; txt "second" ++ nl;
                     txt "hello" ++ nl; txt "done" ++ nl] =
  (State (txt "Hellofrom result") {[KStr (txt "t1")]}
     [EvArchive (txt "first" ++ nl); EvArchiveFlush;
      EvProgress (KStr (txt "t1")) (txt "  " ++ [128295%N] ++ txt " Read: /a.txt");
      EvArchive nl; EvArchiveFlush;
      EvArchive (txt "not json" ++ nl); EvArchiveFlush;
      EvArchive (txt "second" ++ nl); EvArchiveFlush;
      EvArchive (txt "hello" ++ nl); EvArchiveFlush; EvText (txt "Hello");
      EvArchive (txt "done" ++ nl); EvArchiveFlush; EvText (txt "from result");
      EvNarrative (txt "Hellofrom result")],
   Val ()).
Proof. by vm_compute. Qed.

(** A line that parses, but not to a mapping, ends the decoder: the
    exception is not the one line 81 catches.  The line is in the
    archive, and the narrative file is not written. *)
Example scalar_line_raises :
  main sample_loads [txt "hello" ++ nl; txt "7" ++ nl; txt "done" ++ nl] =
  (State (txt "Hello") ∅
     [EvArchive (txt "hello" ++ nl); EvArchiveFlush; EvText (txt "Hello");
      EvArchive (txt "7" ++ nl); EvArchiveFlush],
   Exc AttributeError).
Proof. by vm_compute. Qed.

(** C7, where the code fails: a line of a thousand opening brackets is
    not JSON, and [json.loads] raises [RecursionError] on it, which the
    clause of line 81 does not catch.  The decoder ends there: the line
    is in the archive, the line after it is not read, and the narrative
    file is not written. *)
Lemma deep_line_is_fatal :
  main sample_loads [txt "hello" ++ nl; deep_line ++ nl; txt "done" ++ nl] =
  (State (txt "Hello") ∅
     [EvArchive (txt "hello" ++ nl); EvArchiveFlush; EvText (txt "Hello");
      EvArchive (deep_line ++ nl); EvArchiveFlush],
   Exc RecursionError).
Proof. by vm_compute. Qed.

Lemma tool_announced_once_witness :
  announced (KStr (txt "t1"))
    (trace (main sample_loads [txt "first" ++ nl; txt "second" ++ nl]).1) = 1.
Proof.
  apply (tool_announced_once sample_loads
           [txt "first" ++ nl; txt "second" ++ nl] (KStr (txt "t1"))).
  - by vm_compute.
  - exists (txt "second" ++ nl). split; [apply list_elem_of_further, list_elem_of_here|].
    split; [reflexivity|].
    exists read_record,
      (JObj [(txt "type", JStr (txt "tool_use")); (txt "id", JStr (txt "t1")); (txt "name", JStr (txt "Read"));
             (txt "input", JObj [(txt "file_path", JStr (txt "/a.txt"))])]).
    split; [reflexivity|]. split; [apply list_elem_of_here|reflexivity].
Defined.



Lemma result_payload_witness :
  process_record result_record (State [] ∅ []) =
  (State (txt "from result") ∅ [EvText (txt "from result")], Val ()).
Proof.
  rewrite (proj1 (proj2 result_payload_rule)
             [(txt "type", JStr (txt "result"));
              (txt "message", JObj [(txt "content", JArr [JObj [(txt "type", JStr (txt "text"));
                                                        (txt "text", JStr (txt "from message"))]])]);
              (txt "result", JObj [(txt "content", JArr [JObj [(txt "type", JStr (txt "text"));
                                                       (txt "text", JStr (txt "from result"))]])])]
             (JObj [(txt "content", JArr [JObj [(txt "type", JStr (txt "text"));
                                            (txt "text", JStr (txt "from result"))]])])
             (State [] ∅ []) eq_refl eq_refl).
  reflexivity.
Defined.

(** *** More concrete runs *)

Lemma other_kinds_do_nothing_witness :
  process_record system_record (State (txt "Hello") {[KStr (txt "t1")]} []) =
  (State (txt "Hello") {[KStr (txt "t1")]} [], Val ()).
Proof.
  apply (other_kinds_do_nothing
           [(txt "type", JStr (txt "system")); (txt "subtype", JStr (txt "init"))]).
  intros kind [= <-]. by split.
Defined.

Lemma result_announces_nothing_witness :
  let r := process_record result_with_tool (State [] ∅ []) in
  seen_tools r.1 = ∅ ∧ progress (trace r.1) = [].
Proof.
  exact (result_announces_nothing
           [(txt "type", JStr (txt "result"));
            (txt "result", JObj [(txt "content", JArr [grep_block])])]
           (State [] ∅ []) eq_refl).
Defined.

Lemma bare_tool_defaults_witness :
  assistant_block bare_tool (State [] ∅ []) =
  (State [] ({[KStr (txt "t9")]} ∪ ∅) [EvProgress (KStr (txt "t9")) (txt "  " ++ [128295%N] ++ txt " unknown: {}")],
   Val ()).
Proof.
  apply (bare_tool_defaults [(txt "type", JStr (txt "tool_use")); (txt "id", JStr (txt "t9"))]
           (KStr (txt "t9")) (State [] ∅ [])); try reflexivity.
  apply not_elem_of_empty.
Defined.



(** A line of a no-break space and a line separator is white space to
    [str.strip]: it is skipped. *)
Example unicode_space_is_blank :
  all_space [160%N; 8232%N; 10%N] = true ∧
  main sample_loads [[160%N; 8232%N; 10%N]] =
    (State [] ∅ [EvArchive [160%N; 8232%N; 10%N]; EvArchiveFlush; EvNarrative []],
     Val ()).
Proof. by vm_compute. Qed.


Lemma replay_renders_nothing_witness :
  let r := main sample_loads [txt "first" ++ nl; txt "hello" ++ nl] in
  let r' := main sample_loads [txt "first" ++ nl; txt "hello" ++ nl;
                               txt "hello" ++ nl; txt "first" ++ nl] in
  r'.2 = Val () ∧
  full_text r'.1 = full_text r.1 ∧
  seen_tools r'.1 = seen_tools r.1 ∧
  stdout (trace r'.1) = stdout (trace r.1) ∧
  progress (trace r'.1) = progress (trace r.1) ∧
  archive (trace r'.1) = [txt "first" ++ nl; txt "hello" ++ nl;
                          txt "hello" ++ nl; txt "first" ++ nl].
Proof.
  apply (replay_renders_nothing sample_loads
           [txt "first" ++ nl; txt "hello" ++ nl] [txt "hello" ++ nl; txt "first" ++ nl]);
    [by vm_compute|].
  intros l Hl.
  apply elem_of_cons in Hl as [->|Hl];
    [apply list_elem_of_further, list_elem_of_here|].
  apply elem_of_cons in Hl as [->|Hl]; [apply list_elem_of_here|].
  by apply elem_of_nil in Hl.
Defined.

End StreamParserFacts.
